(** * DS.Store: the identity-mapped record store of ember-data

    A shallow embedding of [packages/ember-data/lib/system/store.js].

    The store is a JavaScript object whose methods mutate shared objects
    (records, type maps, record arrays, promises) and call out to an adapter.
    The embedding keeps that shape: one [World] holds the object heaps and
    the store's fields, and every method is a computation in a small
    state-and-exception monad [M].  Object identity is the heap address.
    References never dangle in JavaScript, so reads go through total lookup
    and the theorems carry range hypotheses where validity matters. *)

From stdpp Require Import gmap strings list pretty.
From Stdlib Require Import ZArith Lia.

Open Scope string_scope.
Open Scope list_scope.
Open Scope nat_scope.

(** ** JavaScript values that enter the store as identifiers

    [find]'s documentation gives the identifier as
    [{Object|String|Integer|null}]; a missing argument is [undefined].
    Numbers are the integers (those that JavaScript prints in plain decimal
    notation); objects are queries and never reach the identifier paths.

    JavaScript numbers are doubles: an integer is printed digit for digit
    only while it is a safe integer (magnitude at most 2^53 - 1); beyond
    that digits are rounded away, and from 10^21 on the exponent notation
    is used.  [JNum n] therefore stands for a JavaScript number only when
    [safeInteger n] holds, and a statement about the string form of a
    number carries that bound. *)

Inductive jsval :=
| JNull
| JUndefined
| JNum (n : Z)
| JStr (s : string).

#[global] Instance jsval_eq_dec : EqDecision jsval.
Proof. solve_decision. Defined.

(** [Number.isSafeInteger(n)] *)
Definition safeInteger (n : Z) : bool := (Z.abs n <=? 2 ^ 53 - 1)%Z.

(** The values of the model that are JavaScript values. *)
Definition isJsValue (v : jsval) : bool :=
  match v with
  | JNum n => safeInteger n
  | _ => true
  end.

(** ECMAScript ToString, which is also the property-key conversion of
    [obj[v]] and the meaning of [v + ''] on these values (for a number:
    on the safe integers). *)
Definition toString (v : jsval) : string :=
  match v with
  | JNull => "null"
  | JUndefined => "undefined"
  | JNum n => pretty n
  | JStr s => s
  end.

(** ECMAScript ToBoolean: [if (v)], [!v]. *)
Definition truthy (v : jsval) : bool :=
  match v with
  | JNull | JUndefined => false
  | JNum n => negb (n =? 0)%Z
  | JStr s => negb (String.eqb s "")
  end.

(** [v == null] (with jshint's eqnull): true of [null] and [undefined]. *)
Definition looseEqNull (v : jsval) : bool :=
  match v with
  | JNull | JUndefined => true
  | _ => false
  end.

(** [var coerceId = function(id) { return id == null ? null : id+''; }] *)
Definition coerceId (id : jsval) : jsval :=
  if looseEqNull id then JNull else JStr (toString id).

(** The same function on any universe of values, given the two language
    primitives it is made of: [id == null] and [id + ''].  [None] is
    [null]. *)
Definition coerceIdOf {V : Type} (eqNull : V → bool) (plusEmpty : V → string) (id : V)
  : option string :=
  if eqNull id then None else Some (plusEmpty id).

(** ** Objects *)

Abbreviation EntityType := nat (only parsing).   (* a model class, by its guid *)
Abbreviation ref := nat (only parsing).          (* address of a DS.Model instance *)
Abbreviation aref := nat (only parsing).         (* address of a record array *)
Abbreviation pref := nat (only parsing).         (* address of an RSVP deferred/promise *)

(** Modelled from the spec: the record lifecycle.  DS.Model and its state
    manager are missing (they are not part of store.js); the store only
    sends events to a record and reads its flags.  The states are those of
    the design's lifecycle: empty, loading, loaded and saved, new, dirty,
    deleted-pending, the three in-flight states, saved-deleted, invalid and
    error. *)
Inductive RecordState :=
| Empty | Loading | Saved
| New | Dirty | DeletedPending
| InFlightCreate | InFlightUpdate | InFlightDelete
| SavedDeleted | Invalid | Errored.

#[global] Instance RecordState_eq_dec : EqDecision RecordState.
Proof. solve_decision. Defined.

Record RecordObj := {
  rec_id : jsval;             (* get(record, 'id') *)
  rec_type : EntityType;      (* record.constructor *)
  rec_state : RecordState
}.

#[global] Instance RecordObj_inhabited : Inhabited RecordObj :=
  populate {| rec_id := JUndefined; rec_type := 0; rec_state := Empty |}.

(** Modelled from the spec: the record flag [isEmpty] of the missing
    DS.Model, true in the "empty" state only. *)
Definition state_isEmpty (st : RecordState) : bool :=
  match st with Empty => true | _ => false end.

(** Modelled from the spec: the record flag [isLoaded] of the missing
    DS.Model, true once the record has left "empty" and "loading". *)
Definition state_isLoaded (st : RecordState) : bool :=
  match st with Empty | Loading => false | _ => true end.

(** Modelled from the spec: the record flag [isNew] of the missing
    DS.Model, true of a created record until its creation is acknowledged. *)
Definition state_isNew (st : RecordState) : bool :=
  match st with New | InFlightCreate => true | _ => false end.

(** Modelled from the spec: the record flag [isDeleted] of the missing
    DS.Model, true in the deleted states. *)
Definition state_isDeleted (st : RecordState) : bool :=
  match st with DeletedPending | InFlightDelete | SavedDeleted => true | _ => false end.

Definition isEmpty (o : RecordObj) : bool := state_isEmpty (rec_state o).
Definition isLoaded (o : RecordObj) : bool := state_isLoaded (rec_state o).
Definition isNew (o : RecordObj) : bool := state_isNew (rec_state o).
Definition isDeleted (o : RecordObj) : bool := state_isDeleted (rec_state o).

Definition with_state (f : RecordState → RecordState) (o : RecordObj) : RecordObj :=
  {| rec_id := rec_id o; rec_type := rec_type o; rec_state := f (rec_state o) |}.
Definition with_id (id : jsval) (o : RecordObj) : RecordObj :=
  {| rec_id := id; rec_type := rec_type o; rec_state := rec_state o |}.

(** Modelled from the spec: [record.loadingData()] of the missing
    DS.Model takes an empty record to "loading" (the store sends it only to
    records it has just seen empty). *)
Definition loadingData_state (st : RecordState) : RecordState :=
  match st with Empty => Loading | _ => st end.

(** Modelled from the spec: [record.adapterWillCommit()] of the missing
    DS.Model marks the intent to commit: new, dirty and deleted-pending
    records go in flight. *)
Definition adapterWillCommit_state (st : RecordState) : RecordState :=
  match st with
  | New => InFlightCreate
  | Dirty => InFlightUpdate
  | DeletedPending => InFlightDelete
  | _ => st
  end.

(** Modelled from the spec: [record.adapterDidCommit(data)] of the missing
    DS.Model takes an in-flight record to its saved state. *)
Definition adapterDidCommit_state (st : RecordState) : RecordState :=
  match st with
  | InFlightCreate | InFlightUpdate => Saved
  | InFlightDelete => SavedDeleted
  | _ => st
  end.

(** Modelled from the spec: [record.setupData(data)] of the missing
    DS.Model, data ingestion, leaves an empty or loading record loaded. *)
Definition setupData_state (st : RecordState) : RecordState :=
  match st with Empty | Loading => Saved | _ => st end.

(** The per-type index created by [typeMapFor]:
    [{ idToRecord: {}, records: [], metadata: {} }], to which [all] later
    adds [findAllCache].  [idToRecord] is a plain object used as a map; its
    keys are the string forms of the identifiers.  The map holds its own
    properties; what the object answers under a key it inherits
    ("constructor", "toString", ...) is given by [slotOf] below. *)
Record TypeMap := {
  idToRecord : gmap string ref;
  records : list ref;
  metadata : gmap string jsval;
  findAllCache : option aref
}.

Definition emptyTypeMap : TypeMap :=
  {| idToRecord := ∅; records := []; metadata := ∅; findAllCache := None |}.

Definition tm_set_idToRecord (f : gmap string ref → gmap string ref) (tm : TypeMap) :=
  {| idToRecord := f (idToRecord tm); records := records tm;
     metadata := metadata tm; findAllCache := findAllCache tm |}.
Definition tm_set_records (f : list ref → list ref) (tm : TypeMap) :=
  {| idToRecord := idToRecord tm; records := f (records tm);
     metadata := metadata tm; findAllCache := findAllCache tm |}.
Definition tm_set_metadata (f : gmap string jsval → gmap string jsval) (tm : TypeMap) :=
  {| idToRecord := idToRecord tm; records := records tm;
     metadata := f (metadata tm); findAllCache := findAllCache tm |}.
Definition tm_set_findAllCache (c : option aref) (tm : TypeMap) :=
  {| idToRecord := idToRecord tm; records := records tm;
     metadata := metadata tm; findAllCache := c |}.

Record RecordArray := {
  ra_type : EntityType;
  ra_content : list ref;
  ra_isLoaded : bool;
  ra_isUpdating : bool;
  ra_loadingRecordsCount : nat
}.

#[global] Instance RecordArray_inhabited : Inhabited RecordArray :=
  populate {| ra_type := 0; ra_content := []; ra_isLoaded := false;
              ra_isUpdating := false; ra_loadingRecordsCount := 0 |}.

Definition ra_set_isUpdating (b : bool) (a : RecordArray) :=
  {| ra_type := ra_type a; ra_content := ra_content a; ra_isLoaded := ra_isLoaded a;
     ra_isUpdating := b; ra_loadingRecordsCount := ra_loadingRecordsCount a |}.
Definition ra_set_isLoaded (b : bool) (a : RecordArray) :=
  {| ra_type := ra_type a; ra_content := ra_content a; ra_isLoaded := b;
     ra_isUpdating := ra_isUpdating a; ra_loadingRecordsCount := ra_loadingRecordsCount a |}.
Definition ra_set_loadingRecordsCount (n : nat) (a : RecordArray) :=
  {| ra_type := ra_type a; ra_content := ra_content a; ra_isLoaded := ra_isLoaded a;
     ra_isUpdating := ra_isUpdating a; ra_loadingRecordsCount := n |}.
Definition ra_set_content (f : list ref → list ref) (a : RecordArray) :=
  {| ra_type := ra_type a; ra_content := f (ra_content a); ra_isLoaded := ra_isLoaded a;
     ra_isUpdating := ra_isUpdating a; ra_loadingRecordsCount := ra_loadingRecordsCount a |}.

(** [Ember.RSVP.defer()] makes a pending promise; [Ember.RSVP.resolve(x)]
    makes one that is already fulfilled.  The store never settles a
    deferred itself: it hands the resolver to the adapter. *)
Inductive PromiseState :=
| Pending
| Fulfilled (record : ref).

(** The data an adapter acknowledges with; the store reads only [data.id]. *)
Record Payload := { payload_id : jsval }.

(** ** The adapter boundary *)

(** Modelled from the spec: the calls the store makes on the adapter
    collaborator (DS.Adapter is missing, it is not part of store.js), each
    with the arguments the store passes.  They are recorded in order. *)
Inductive AdapterCall :=
| A_find (type : EntityType) (id : jsval) (resolver : pref)
| A_findMany (type : EntityType) (ids : list jsval) (owner : ref) (resolver : pref)
| A_findAll (type : EntityType) (sinceToken : jsval) (resolver : pref)
| A_createRecord (type : EntityType) (record : ref) (resolver : pref)
| A_deleteRecord (type : EntityType) (record : ref) (resolver : pref)
| A_updateRecord (type : EntityType) (record : ref) (resolver : pref).

(** The adapter hooks whose presence the store asserts before a fetch. *)
Inductive hook := HFind | HFindMany | HFindAll.

(** Modelled from the spec: an adapter, as far as the store can tell one
    from another (DS.Adapter is missing): the hooks it implements, and what
    a commit hook does to the store while it runs.  The find hooks return
    without calling back (their results arrive in a later tick); a commit
    hook may save further records on the spot, and [onCommit] lists the
    [scheduleSave] calls it makes. *)
Record Adapter := {
  implements : hook → bool;
  onCommit : AdapterCall → list (ref * pref)
}.

(** [Ember.run.once(target, method)]: at most one pending call per target
    and method in the current run loop. *)
Inductive Task :=
| T_flushPendingSave
| T_didLoad (array : aref).

#[global] Instance Task_eq_dec : EqDecision Task.
Proof. solve_decision. Defined.

(** Modelled from the spec: the bookkeeping of the missing
    DS.RecordArrayManager (not part of store.js) that the store's calls
    reach: the arrays subscribed to a type, and the arrays waiting for a
    record to load. *)
Record RecordArrayManager := {
  filteredRecordArrays : list (EntityType * aref);
  waitingRecordArrays : list (ref * aref)
}.

Record World := {
  heap : list RecordObj;                       (* every DS.Model instance *)
  arrays : list RecordArray;
  promises : list PromiseState;
  typeMaps : gmap nat TypeMap;                 (* this.typeMaps, by guid *)
  _pendingSave : list (ref * pref);            (* this._pendingSave *)
  recordArrayManager : RecordArrayManager;
  runOnce : list Task;                         (* the run loop's once-queue *)
  adapters : EntityType → option Adapter;      (* adapterForType *)
  adapterLog : list AdapterCall
}.

Definition set_heap (f : list RecordObj → list RecordObj) (w : World) : World :=
  {| heap := f (heap w); arrays := arrays w; promises := promises w;
     typeMaps := typeMaps w; _pendingSave := _pendingSave w;
     recordArrayManager := recordArrayManager w; runOnce := runOnce w;
     adapters := adapters w; adapterLog := adapterLog w |}.
Definition set_arrays (f : list RecordArray → list RecordArray) (w : World) : World :=
  {| heap := heap w; arrays := f (arrays w); promises := promises w;
     typeMaps := typeMaps w; _pendingSave := _pendingSave w;
     recordArrayManager := recordArrayManager w; runOnce := runOnce w;
     adapters := adapters w; adapterLog := adapterLog w |}.
Definition set_promises (f : list PromiseState → list PromiseState) (w : World) : World :=
  {| heap := heap w; arrays := arrays w; promises := f (promises w);
     typeMaps := typeMaps w; _pendingSave := _pendingSave w;
     recordArrayManager := recordArrayManager w; runOnce := runOnce w;
     adapters := adapters w; adapterLog := adapterLog w |}.
Definition set_typeMaps (f : gmap nat TypeMap → gmap nat TypeMap) (w : World) : World :=
  {| heap := heap w; arrays := arrays w; promises := promises w;
     typeMaps := f (typeMaps w); _pendingSave := _pendingSave w;
     recordArrayManager := recordArrayManager w; runOnce := runOnce w;
     adapters := adapters w; adapterLog := adapterLog w |}.
Definition set_pendingSave (f : list (ref * pref) → list (ref * pref)) (w : World) : World :=
  {| heap := heap w; arrays := arrays w; promises := promises w;
     typeMaps := typeMaps w; _pendingSave := f (_pendingSave w);
     recordArrayManager := recordArrayManager w; runOnce := runOnce w;
     adapters := adapters w; adapterLog := adapterLog w |}.
Definition set_recordArrayManager (f : RecordArrayManager → RecordArrayManager) (w : World) : World :=
  {| heap := heap w; arrays := arrays w; promises := promises w;
     typeMaps := typeMaps w; _pendingSave := _pendingSave w;
     recordArrayManager := f (recordArrayManager w); runOnce := runOnce w;
     adapters := adapters w; adapterLog := adapterLog w |}.
Definition set_runOnce (f : list Task → list Task) (w : World) : World :=
  {| heap := heap w; arrays := arrays w; promises := promises w;
     typeMaps := typeMaps w; _pendingSave := _pendingSave w;
     recordArrayManager := recordArrayManager w; runOnce := f (runOnce w);
     adapters := adapters w; adapterLog := adapterLog w |}.
Definition set_adapterLog (f : list AdapterCall → list AdapterCall) (w : World) : World :=
  {| heap := heap w; arrays := arrays w; promises := promises w;
     typeMaps := typeMaps w; _pendingSave := _pendingSave w;
     recordArrayManager := recordArrayManager w; runOnce := runOnce w;
     adapters := adapters w; adapterLog := f (adapterLog w) |}.

(** [init]: [typeMaps = {}], [relationshipChanges = {}], [_pendingSave = []]. *)
Definition init (adapterFor : EntityType → option Adapter) : World :=
  {| heap := []; arrays := []; promises := []; typeMaps := ∅; _pendingSave := [];
     recordArrayManager := {| filteredRecordArrays := []; waitingRecordArrays := [] |};
     runOnce := []; adapters := adapterFor; adapterLog := [] |}.

(** ** Exceptions and the store monad

    [Ember.assert(msg, test)] throws when [test] is falsy.  An exception
    does not roll the heap back, so an outcome always comes with the world
    reached. *)
Inductive Assertion :=
| IdAlreadyUsed       (* 'The id ... has already been used with another record of type ...' *)
| IdentityConflict    (* 'An adapter cannot assign a new id to a record that already has an id. ...' *)
| NoAdapter           (* 'You tried to ... but you have no adapter (for ...)' *)
| AdapterLacks (h : hook).  (* '... your adapter ... does not implement ...' *)

Inductive Error :=
| AssertionFailed (a : Assertion)
| TypeError.

(** Where the embedding stops following the code.  [idToRecord] and
    [metadata] are plain objects ([{}]), and two uses of them lead out of
    the store's own code:
    - a record is expected and [idToRecord[key]] answers with the property
      that every plain object inherits from [Object.prototype] under that
      key (the function [Object] for ["constructor"]); the store passes
      that value on as if it were a record, to its caller, to [Ember.get],
      to [Ember.RSVP.resolve] or into a method call;
    - [Ember.set] is given a property that is the empty string or contains
      a dot, which Ember does not take for the name of a property.
    A computation that gets there ends in [Outside], with the world it has
    reached, and says nothing about what follows. *)
Inductive Exit :=
| InheritedProperty (key : string)
| PropertyPath (property : string).

Inductive Outcome (A : Type) :=
| Return (a : A)
| Throw (e : Error)
| Outside (x : Exit).
Arguments Return {A} a.
Arguments Throw {A} e.
Arguments Outside {A} x.

Definition M (A : Type) : Type := World → World * Outcome A.

Definition ret {A} (a : A) : M A := λ w, (w, Return a).
Definition throw {A} (e : Error) : M A := λ w, (w, Throw e).
Definition outside {A} (x : Exit) : M A := λ w, (w, Outside x).
Definition bind {A B} (c : M A) (k : A → M B) : M B := λ w,
  match c w with
  | (w', Return a) => k a w'
  | (w', Throw e) => (w', Throw e)
  | (w', Outside x) => (w', Outside x)
  end.
Definition gets {A} (f : World → A) : M A := λ w, (w, Return (f w)).
Definition modify (f : World → World) : M unit := λ w, (f w, Return tt).
Definition assert (a : Assertion) (test : bool) : M unit :=
  if test then ret tt else throw (AssertionFailed a).
Definition when (b : bool) (c : M unit) : M unit := if b then c else ret tt.

Notation "'let!' x ':=' c 'in' k" := (bind c (λ x, k))
  (at level 10, x name, c at level 100, k at level 200).
Notation "c ';;' k" := (bind c (λ _, k))
  (at level 100, k at level 200, right associativity).

(** [forEach(list, callback)] for a callback with effects. *)
Fixpoint forEach {A} (l : list A) (callback : A → M unit) : M unit :=
  match l with
  | [] => ret tt
  | x :: l' => callback x ;; forEach l' callback
  end.

(** ** The store's methods *)

(** Object creation and property access. *)
Definition getRecord (w : World) (record : ref) : RecordObj := heap w !!! record.
Definition getArray (w : World) (array : aref) : RecordArray := arrays w !!! array.

Definition updateRecord (record : ref) (f : RecordObj → RecordObj) : M unit :=
  modify (λ w, set_heap (λ h, <[record := f (h !!! record)]> h) w).
Definition updateArray (array : aref) (f : RecordArray → RecordArray) : M unit :=
  modify (λ w, set_arrays (λ h, <[array := f (h !!! array)]> h) w).

(** [type._create({ id: id, store: this })].  Modelled from the spec: a
    record of the missing DS.Model starts in the "empty" state. *)
Definition _create (type : EntityType) (id : jsval) : M ref := λ w,
  (set_heap (λ h, h ++ [{| rec_id := id; rec_type := type; rec_state := Empty |}]) w,
   Return (length (heap w))).

Definition createArray (a : RecordArray) : M aref := λ w,
  (set_arrays (λ h, h ++ [a]) w, Return (length (arrays w))).

(** [Ember.RSVP.defer()] and [Ember.RSVP.resolve(record)]. *)
Definition defer : M pref := λ w,
  (set_promises (λ h, h ++ [Pending]) w, Return (length (promises w))).
Definition resolve (record : ref) : M pref := λ w,
  (set_promises (λ h, h ++ [Fulfilled record]) w, Return (length (promises w))).

(** [once(target, method)]. *)
Definition once (t : Task) : M unit :=
  modify (set_runOnce (λ q, if decide (t ∈ q) then q else q ++ [t])).

(** The events sent to a record, as updates of the record in the heap:
    [record.loadingData()], [record.adapterWillCommit()],
    [record.adapterDidCommit(data)], [record.setupData(data)]. *)
Definition loadingData (record : ref) : M unit :=
  updateRecord record (with_state loadingData_state).

Definition adapterWillCommit (record : ref) : M unit :=
  updateRecord record (with_state adapterWillCommit_state).

Definition adapterDidCommit (record : ref) : M unit :=
  updateRecord record (with_state adapterDidCommit_state).

Definition setupData (record : ref) (data : Payload) : M unit :=
  updateRecord record (with_state setupData_state).

(** The property names of [Object.prototype]: the keys under which a
    plain object answers although it has no property of its own.  What it
    answers with is a function ([Object.prototype] itself for
    ["__proto__"]), so the answer is truthy.  A write under one of these
    keys makes an own property, except under ["__proto__"], where
    JavaScript replaces the prototype of the object instead; the embedding
    does not tell that write apart (the store writes under a key it has not
    looked up in [updateId] only). *)
Definition inheritedKeys : list string :=
  ["constructor"; "toString"; "toLocaleString"; "valueOf"; "hasOwnProperty";
   "isPrototypeOf"; "propertyIsEnumerable"; "__proto__"; "__defineGetter__";
   "__defineSetter__"; "__lookupGetter__"; "__lookupSetter__"].

Definition inheritedKey (k : string) : bool := bool_decide (k ∈ inheritedKeys).

(** [idToRecord[key]]: a record the store has put there, an inherited
    property, or [undefined]. *)
Inductive Slot :=
| Own (record : ref)
| Inherited
| Absent.

Definition slotOf (idToRecord : gmap string ref) (key : string) : Slot :=
  match idToRecord !! key with
  | Some record => Own record
  | None => if inheritedKey key then Inherited else Absent
  end.

(** [!!idToRecord[key]] *)
Definition slotTruthy (slot : Slot) : bool :=
  match slot with
  | Absent => false
  | _ => true
  end.

(** [typeMapFor]: the type's map, created on first use. *)
Definition typeMapFor (type : EntityType) : M TypeMap := λ w,
  match typeMaps w !! type with
  | Some typeMap => (w, Return typeMap)
  | None => (set_typeMaps (λ m, <[type := emptyTypeMap]> m) w, Return emptyTypeMap)
  end.

(** A write through the reference [typeMapFor] returned. *)
Definition updateTypeMap (type : EntityType) (f : TypeMap → TypeMap) : M unit :=
  modify (set_typeMaps (λ m, alter f type m)).

(** [adapterForType]. *)
Definition adapterForType (type : EntityType) : M (option Adapter) :=
  gets (λ w, adapters w type).

Definition adapterImplements (adapter : option Adapter) (h : hook) : bool :=
  match adapter with Some a => implements a h | None => false end.

Definition callAdapter (c : AdapterCall) : M unit :=
  modify (set_adapterLog (λ l, l ++ [c])).

(** [buildRecord: function(type, id, data)] *)
Definition buildRecord (type : EntityType) (id : jsval) (data : option Payload) : M ref :=
  let! typeMap := typeMapFor type in
  assert IdAlreadyUsed
    (negb (truthy id) || negb (slotTruthy (slotOf (idToRecord typeMap) (toString id)))) ;;
  let! record := _create type id in
  match data with Some d => setupData record d | None => ret tt end ;;
  when (truthy id)
    (updateTypeMap type (tm_set_idToRecord (λ m, <[toString id := record]> m))) ;;
  updateTypeMap type (tm_set_records (λ l, l ++ [record])) ;;
  ret record.

(** [hasRecordForId: function(type, id)] *)
Definition hasRecordForId (type : EntityType) (id : jsval) : M bool :=
  let id := coerceId id in
  let! typeMap := typeMapFor type in
  ret (slotTruthy (slotOf (idToRecord typeMap) (toString id))).

(** [recordForId: function(type, id)] *)
Definition recordForId (type : EntityType) (id : jsval) : M ref :=
  let id := coerceId id in
  let! typeMap := typeMapFor type in
  match slotOf (idToRecord typeMap) (toString id) with
  | Own record => ret record
  | Inherited => outside (InheritedProperty (toString id))
  | Absent => buildRecord type id None
  end.

(** [getById: function(type, id)] *)
Definition getById (type : EntityType) (id : jsval) : M ref :=
  let! has := hasRecordForId type id in
  if has then recordForId type id else buildRecord type id None.

(** [fetchRecord: function(record)] *)
Definition fetchRecord (record : ref) : M pref :=
  let! type := gets (λ w, rec_type (getRecord w record)) in
  let! id := gets (λ w, rec_id (getRecord w record)) in
  let! resolver := defer in
  loadingData record ;;
  let! adapter := adapterForType type in
  assert NoAdapter (bool_decide (is_Some adapter)) ;;
  assert (AdapterLacks HFind) (adapterImplements adapter HFind) ;;
  callAdapter (A_find type id resolver) ;;
  ret resolver.

(** [findById: function(type, id)] *)
Definition findById (type : EntityType) (id : jsval) : M pref :=
  let! record := getById type id in
  let! empty := gets (λ w, isEmpty (getRecord w record)) in
  if empty then fetchRecord record else resolve record.

(** [Ember.MapWithDefault] keyed by [record.constructor]: keys keep their
    insertion order, [get(key).push(record)] appends to the key's array. *)
Fixpoint groupPush (type : EntityType) (record : ref) (m : list (EntityType * list ref))
  : list (EntityType * list ref) :=
  match m with
  | [] => [(type, [record])]
  | (t, rs) :: m' =>
      if decide (t = type) then (t, rs ++ [record]) :: m'
      else (t, rs) :: groupPush type record m'
  end.

Definition groupByType (w : World) (records : list ref) : list (EntityType * list ref) :=
  foldl (λ m record, groupPush (rec_type (getRecord w record)) record m) [] records.

(** The callback of [fetchMany]'s second loop, for one type and its
    records. *)
Definition fetchManyOfType (owner : ref) (resolver : pref)
    (group : EntityType * list ref) : M unit :=
  let '(type, records) := group in
  let! ids := gets (λ w, map (λ r, rec_id (getRecord w r)) records) in
  let! adapter := adapterForType type in
  assert NoAdapter (bool_decide (is_Some adapter)) ;;
  assert (AdapterLacks HFindMany) (adapterImplements adapter HFindMany) ;;
  callAdapter (A_findMany type ids owner resolver).

(** [fetchMany: function(records, owner, resolver)]; returns [undefined]. *)
Definition fetchMany (records : list ref) (owner : ref) (resolver : pref) : M unit :=
  if bool_decide (length records = 0) then ret tt
  else
    let! recordsByTypeMap := gets (λ w, groupByType w records) in
    forEach recordsByTypeMap (fetchManyOfType owner resolver).

(** Modelled from the spec: [createManyArray] of the missing
    DS.RecordArrayManager builds the backing collection of a to-many
    relationship, not yet loaded. *)
Definition createManyArray (type : EntityType) (records : list ref) : M aref :=
  createArray {| ra_type := type; ra_content := records; ra_isLoaded := false;
                 ra_isUpdating := false; ra_loadingRecordsCount := 0 |}.

(** Modelled from the spec: [registerWaitingRecordArray] of the missing
    DS.RecordArrayManager notes that an array waits for a record. *)
Definition registerWaitingRecordArray (record : ref) (array : aref) : M unit :=
  modify (set_recordArrayManager (λ m,
    {| filteredRecordArrays := filteredRecordArrays m;
       waitingRecordArrays := waitingRecordArrays m ++ [(record, array)] |})).

(** The records of a type, in creation order ([typeMap.records]). *)
Definition knownRecords (w : World) (type : EntityType) : list ref :=
  match typeMaps w !! type with Some typeMap => records typeMap | None => [] end.

(** Modelled from the spec: [registerFilteredRecordArray] of the missing
    DS.RecordArrayManager, with the default predicate, subscribes the array
    to the type and seeds it with the known records of the type that are
    loaded and not deleted. *)
Definition registerFilteredRecordArray (array : aref) (type : EntityType) : M unit :=
  modify (set_recordArrayManager (λ m,
    {| filteredRecordArrays := filteredRecordArrays m ++ [(type, array)];
       waitingRecordArrays := waitingRecordArrays m |})) ;;
  let! seed := gets (λ w,
    filter (λ r, isLoaded (getRecord w r) && negb (isDeleted (getRecord w r)))
           (knownRecords w type)) in
  updateArray array (ra_set_content (λ _, seed)).

(** [findMany: function(owner, records, type, resolver)] *)
Definition findMany (owner : ref) (records : list ref) (type : EntityType) (resolver : pref)
  : M aref :=
  let! unloadedRecords := gets (λ w, filter (λ r, isEmpty (getRecord w r)) records) in
  let! manyArray := createManyArray type records in
  forEach unloadedRecords loadingData ;;
  updateArray manyArray (ra_set_loadingRecordsCount (length unloadedRecords)) ;;
  (if negb (bool_decide (length unloadedRecords = 0)) then
     forEach unloadedRecords (λ record, registerWaitingRecordArray record manyArray) ;;
     fetchMany unloadedRecords owner resolver
   else
     updateArray manyArray (ra_set_isLoaded true) ;;
     once (T_didLoad manyArray)) ;;
  ret manyArray.

(** [all: function(type)] *)
Definition all (type : EntityType) : M aref :=
  let! typeMap := typeMapFor type in
  match findAllCache typeMap with
  | Some findAllCache => ret findAllCache
  | None =>
      let! array := createArray {| ra_type := type; ra_content := []; ra_isLoaded := true;
                                   ra_isUpdating := false; ra_loadingRecordsCount := 0 |} in
      registerFilteredRecordArray array type ;;
      updateTypeMap type (tm_set_findAllCache (Some array)) ;;
      ret array
  end.

(** [fetchAll: function(type, array)] *)
Definition fetchAll (type : EntityType) (array : aref) : M pref :=
  let! adapter := adapterForType type in
  let! typeMap := typeMapFor type in
  let sinceToken := default JUndefined (metadata typeMap !! "since") in
  let! resolver := defer in
  updateArray array (ra_set_isUpdating true) ;;
  assert NoAdapter (bool_decide (is_Some adapter)) ;;
  assert (AdapterLacks HFindAll) (adapterImplements adapter HFindAll) ;;
  callAdapter (A_findAll type sinceToken resolver) ;;
  ret resolver.

(** [findAll: function(type)] *)
Definition findAll (type : EntityType) : M pref :=
  let! array := all type in
  fetchAll type array.


(** A property that [Ember.set] takes for the name of a property: not
    empty and without a dot. *)
Fixpoint hasDot (s : string) : bool :=
  match s with
  | EmptyString => false
  | String c s' => String.eqb (String c "") "." || hasDot s'
  end.

Definition propertyName (property : string) : bool :=
  negb (String.eqb property "") && negb (hasDot property).

(** [metaForType: function(type, property, data)]; on the plain object
    [metadata], [set(target, property, data)] with the name of a property
    is [target[property] = data]. *)
Definition metaForType (type : EntityType) (property : string) (data : jsval) : M unit :=
  let! _ := typeMapFor type in
  if propertyName property then
    updateTypeMap type (tm_set_metadata (λ m, <[property := data]> m))
  else outside (PropertyPath property).

(** [didUpdateAll: function(type)]; [set] on a missing cache is an error. *)
Definition didUpdateAll (type : EntityType) : M unit :=
  let! typeMap := typeMapFor type in
  match findAllCache typeMap with
  | Some findAllCache => updateArray findAllCache (ra_set_isUpdating false)
  | None => throw TypeError
  end.

(** [scheduleSave: function(record, resolver)] *)
Definition scheduleSave (record : ref) (resolver : pref) : M unit :=
  adapterWillCommit record ;;
  modify (set_pendingSave (λ q, q ++ [(record, resolver)])) ;;
  once T_flushPendingSave.

(** The callback of [flushPendingSave], for one tuple.  The adapter's
    commit hook runs inside the call and may schedule further saves. *)
Definition flushOne (record : ref) (resolver : pref) : M unit :=
  let! type := gets (λ w, rec_type (getRecord w record)) in
  let! adapter := adapterForType type in
  match adapter with
  | None => throw TypeError
  | Some a =>
      let! o := gets (λ w, getRecord w record) in
      let call :=
        if isNew o then A_createRecord type record resolver
        else if isDeleted o then A_deleteRecord type record resolver
        else A_updateRecord type record resolver in
      callAdapter call ;;
      forEach (onCommit a call) (λ '(r, p), scheduleSave r p)
  end.

(** [forEach(this._pendingSave, ...)]: Array.prototype.forEach fixes the
    number of indices on entry and reads the live array at each index, so
    elements pushed during the loop are not visited. *)
Fixpoint flushLoop (n : nat) (i : nat) : M unit :=
  match n with
  | 0 => ret tt
  | S n' =>
      let! tuple := gets (λ w, _pendingSave w !! i) in
      match tuple with
      | Some (record, resolver) => flushOne record resolver
      | None => ret tt
      end ;;
      flushLoop n' (S i)
  end.

(** [flushPendingSave: function()] (its three OrderedSets are never used). *)
Definition flushPendingSave : M unit :=
  let! len := gets (λ w, length (_pendingSave w)) in
  flushLoop len 0 ;;
  modify (set_pendingSave (λ _, [])).

(** One turn of the run loop: the once-queue is taken and emptied, then its
    tasks run; a task scheduled meanwhile waits for the next turn. *)
Definition runTask (t : Task) : M unit :=
  match t with
  | T_flushPendingSave => flushPendingSave
  | T_didLoad _ => ret tt
  end.

Definition tick : M unit :=
  let! q := gets runOnce in
  modify (set_runOnce (λ _, [])) ;;
  forEach q runTask.

(** [updateId: function(record, data)] *)
Definition updateId (record : ref) (data : Payload) : M unit :=
  let! oldId := gets (λ w, rec_id (getRecord w record)) in
  let id := coerceId (payload_id data) in
  assert IdentityConflict (bool_decide (oldId = JNull) || bool_decide (id = oldId)) ;;
  let! type := gets (λ w, rec_type (getRecord w record)) in
  let! _ := typeMapFor type in
  updateTypeMap type (tm_set_idToRecord (λ m, <[toString id := record]> m)) ;;
  updateRecord record (with_id id).

(** [didSaveRecord: function(record, data)] *)
Definition didSaveRecord (record : ref) (data : option Payload) : M unit :=
  match data with Some d => updateId record d | None => ret tt end ;;
  adapterDidCommit record.

(** [didReceiveId: function(record, id)].  After the assertion it writes to
    [typeMap.idToCid] and [this.clientIdToId]; neither object is ever
    created ([typeMapFor] makes [idToRecord], [records], [metadata]; [init]
    makes no [clientIdToId]), so the first write raises a TypeError. *)
Definition didReceiveId (record : ref) (id : jsval) : M unit :=
  let! type := gets (λ w, rec_type (getRecord w record)) in
  let! typeMap := typeMapFor type in
  let! oldId := gets (λ w, rec_id (getRecord w record)) in
  assert IdentityConflict (bool_decide (oldId = JUndefined) || bool_decide (id = oldId)) ;;
  throw TypeError.

(** [indexOf(array, x)], with [None] for -1, and [array.splice(loc, 1)]:
    a negative start counts from the end, so -1 removes the last element. *)
Fixpoint indexOf (l : list ref) (x : ref) : option nat :=
  match l with
  | [] => None
  | y :: l' => if decide (y = x) then Some 0 else S <$> indexOf l' x
  end.

Definition splice1 (loc : option nat) (l : list ref) : list ref :=
  match loc with
  | Some i => delete i l
  | None => take (length l - 1) l
  end.

(** Modelled from the spec: [record.updateRecordArrays()] of the missing
    DS.Model, on unload, takes the record out of every collection that
    contains it. *)
Definition updateRecordArrays (record : ref) : M unit :=
  modify (set_arrays (map (ra_set_content (filter (λ r, r ≠ record))))).

(** [dematerializeRecord: function(record)] *)
Definition dematerializeRecord (record : ref) : M unit :=
  let! type := gets (λ w, rec_type (getRecord w record)) in
  let! typeMap := typeMapFor type in
  let! id := gets (λ w, rec_id (getRecord w record)) in
  updateRecordArrays record ;;
  when (truthy id)
    (updateTypeMap type (tm_set_idToRecord (λ m, delete (toString id) m))) ;;
  updateTypeMap type (tm_set_records (λ l, splice1 (indexOf l record) l)).

(** ** Further methods of the store *)

(** Modelled from the spec: [record.loadedData()] of the missing DS.Model
    takes a record made by [createRecord] out of the "empty" state; the
    record is new. *)
Definition loadedData_state (st : RecordState) : RecordState :=
  match st with Empty => New | _ => st end.

Definition loadedData (record : ref) : M unit :=
  updateRecord record (with_state loadedData_state).

(** [record.setProperties(properties)]; of the properties only [id] is
    modelled. *)
Definition setProperties (record : ref) (id : jsval) : M unit :=
  updateRecord record (with_id id).

(** [_generateId: function(type)].  The adapter's optional
    [generateIdForRecord] hook is a parameter: [generateIdForRecord a] is
    [None] when adapter [a] has no such hook. *)
Definition _generateId (generateIdForRecord : Adapter → option (World → jsval))
    (type : EntityType) : M jsval :=
  let! adapter := adapterForType type in
  match adapter with
  | Some a =>
      match generateIdForRecord a with
      | Some hook => gets hook
      | None => ret JNull
      end
  | None => ret JNull
  end.

(** [createRecord: function(type, properties)]; [None] is a call without
    properties ([properties || {}]). *)
Definition createRecord (generateIdForRecord : Adapter → option (World → jsval))
    (type : EntityType) (properties : option Payload) : M ref :=
  let given := match properties with Some p => payload_id p | None => JUndefined end in
  let! id := (if looseEqNull given then _generateId generateIdForRecord type
              else ret given) in
  let id := coerceId id in
  let! record := buildRecord type id None in
  loadedData record ;;
  setProperties record id ;;
  ret record.


(** [load: function(type, data)].  [recordArrayManager.recordDidChange] is
    a parameter (DS.RecordArrayManager is missing). *)
Definition load (recordDidChange : ref → M unit)
    (type : EntityType) (data : Payload) : M ref :=
  let id := coerceId (payload_id data) in
  let! record := recordForId type id in
  setupData record data ;;
  recordDidChange record ;;
  ret record.

(** [push: function(type, data)].  The serializer's [deserialize] is a
    parameter (the serializer is an outside collaborator). *)
Definition push (recordDidChange : ref → M unit)
    (deserialize : EntityType → Payload → Payload)
    (type : EntityType) (data : Payload) : M ref :=
  let data := deserialize type data in
  load recordDidChange type data ;;
  recordForId type (payload_id data).

(** [didSaveRecords: function(list, dataList)]: the record at position
    [i] is acknowledged with [dataList && dataList[i++]]. *)
Fixpoint didSaveRecordsFrom (i : nat) (records : list ref)
    (dataList : option (list Payload)) : M unit :=
  match records with
  | [] => ret tt
  | record :: rest =>
      didSaveRecord record (match dataList with Some l => l !! i | None => None end) ;;
      didSaveRecordsFrom (S i) rest dataList
  end.

Definition didSaveRecords (records : list ref) (dataList : option (list Payload))
  : M unit :=
  didSaveRecordsFrom 0 records dataList.

(** ** Relationship changes

    [this.relationshipChanges] is a four-level object: child client id,
    parent key, relation key, change type.  The methods touch nothing else
    of the store, so they are functions on that object.  Only own
    properties are modelled. *)

Record RelationshipChange := {
  changeType : string;         (* change.changeType *)
  changeName : nat             (* which change object it is *)
}.

Abbreviation Changes :=
  (gmap string (gmap string (gmap string (gmap string RelationshipChange)))).

(** The [parentRecord] argument: a record, seen through what the methods
    read of it (its string form as a property key, and its [clientId]), or
    a value that is no record ([null] when there is no parent). *)
Inductive parentArg :=
| P_value (v : jsval)
| P_record (name : string) (clientId : jsval).

(** [parentRecord ? parentRecord : parentRecord], used as a property key. *)
Definition parentKeyOnAdd (parent : parentArg) : string :=
  match parent with
  | P_value v => toString v
  | P_record name _ => name
  end.


(** [key in object]. *)
Definition hasKey {A} (m : gmap string A) (k : string) : bool :=
  bool_decide (is_Some (m !! k)).

(** [if (!(key in object)) { object[key] = {}; }] *)
Definition ensureKey {A} (k : string) (m : gmap string (gmap string A))
  : gmap string (gmap string A) :=
  if hasKey m k then m else <[k := ∅]> m.

(** [addRelationshipChangeFor: function(childRecord, childKey,
    parentRecord, parentKey, change)]; [childClientId] is
    [childRecord.clientId]. *)
Definition addRelationshipChangeFor (childClientId : jsval) (childKey : string)
    (parentRecord : parentArg) (parentKey : string) (change : RelationshipChange)
    (changes : Changes) : Changes :=
  let clientId := toString childClientId in
  let parentClientId := parentKeyOnAdd parentRecord in
  let key := childKey +:+ parentKey in
  let changes := ensureKey clientId changes in
  let changes := alter (ensureKey parentClientId) clientId changes in
  let changes := alter (alter (ensureKey key) parentClientId) clientId changes in
  alter (alter (alter (λ byType, <[changeType change := change]> byType) key)
               parentClientId) clientId changes.


(** [changes[clientId][parentClientId][key][type]], [None] when any level
    is missing. *)
Definition changeAt (changes : Changes) (clientId parentClientId key type : string)
  : option RelationshipChange :=
  byParent ← changes !! clientId;
  byKey ← byParent !! parentClientId;
  byType ← byKey !! key;
  byType !! type.

(** ** Views of the store used in the statements *)

Definition idToRecordOf (w : World) (type : EntityType) : gmap string ref :=
  match typeMaps w !! type with Some typeMap => idToRecord typeMap | None => ∅ end.

(** [typeMapFor(type).idToRecord[key]] *)
Definition slotAt (w : World) (type : EntityType) (key : string) : Slot :=
  slotOf (idToRecordOf w type) key.

Definition findAllCacheOf (w : World) (type : EntityType) : option aref :=
  match typeMaps w !! type with Some typeMap => findAllCache typeMap | None => None end.

Definition sinceTokenOf (w : World) (type : EntityType) : jsval :=
  match typeMaps w !! type with
  | Some typeMap => default JUndefined (metadata typeMap !! "since")
  | None => JUndefined
  end.

(** A JavaScript object reference, tagged by the kind of object it names. *)
Inductive Value :=
| V_record (record : ref)
| V_array (array : aref)
| V_promise (promise : pref).

(** The record and resolver a commit call carries. *)
Definition commitOf (c : AdapterCall) : option (ref * pref) :=
  match c with
  | A_createRecord _ r p | A_deleteRecord _ r p | A_updateRecord _ r p => Some (r, p)
  | _ => None
  end.

(** The type's ordered record list, and the parts of the world that the
    identity index does not touch. *)
Definition recordsOf (w : World) (type : EntityType) : list ref := knownRecords w type.

Definition same_collaborators (w w' : World) : Prop :=
  arrays w' = arrays w ∧ promises w' = promises w ∧
  _pendingSave w' = _pendingSave w ∧ recordArrayManager w' = recordArrayManager w ∧
  runOnce w' = runOnce w ∧ adapters w' = adapters w ∧ adapterLog w' = adapterLog w.

(** The world after [typeMapFor type], and the map it returns. *)
Definition ensureTypeMap (type : EntityType) (w : World) : World :=
  match typeMaps w !! type with
  | Some _ => w
  | None => set_typeMaps (λ m, <[type := emptyTypeMap]> m) w
  end.

Definition typeMapOf (w : World) (type : EntityType) : TypeMap :=
  default emptyTypeMap (typeMaps w !! type).

(** What a successful [buildRecord] does to the world. *)
Record built (w : World) (type : EntityType) (id : jsval) (w' : World) : Prop := {
  built_heap :
    heap w' = heap w ++ [{| rec_id := id; rec_type := type; rec_state := Empty |}];
  built_index :
    idToRecordOf w' type =
      if truthy id then <[toString id := length (heap w)]> (idToRecordOf w type)
      else idToRecordOf w type;
  built_records : recordsOf w' type = recordsOf w type ++ [length (heap w)];
  built_cache : findAllCacheOf w' type = findAllCacheOf w type;
  built_other : ∀ type', type' ≠ type →
    typeMaps w' !! type' = typeMaps w !! type';
  built_same : same_collaborators w w'
}.


(** The world after a [fetchAll] that passed its assertions. *)
Definition fetchingAll (type : EntityType) (array : aref) (w : World) : World :=
  set_adapterLog
    (λ l, l ++ [A_findAll type (sinceTokenOf w type) (length (promises w))])
    (set_arrays (λ h, <[array := ra_set_isUpdating true (h !!! array)]> h)
       (set_promises (λ h, h ++ [Pending]) (ensureTypeMap type w))).

(** The array stored under a key of the grouping map. *)
Fixpoint groupOf (m : list (EntityType * list ref)) (type : EntityType) : list ref :=
  match m with
  | [] => []
  | (t, rs) :: m' => if decide (t = type) then rs else groupOf m' type
  end.

(** A grouping map that holds exactly the given records, split by type. *)
Definition grouped (ty : ref → EntityType)
    (records : list ref) (m : list (EntityType * list ref)) : Prop :=
  NoDup m.*1 ∧
  (∀ T, groupOf m T = filter (λ r, ty r = T) records) ∧
  (∀ T, T ∈ m.*1 ↔ ∃ r, r ∈ records ∧ ty r = T).

(** The call [fetchMany] makes for one group, with the ids read in [w]. *)
Definition findManyCall (w : World) (owner : ref) (resolver : pref)
    (g : EntityType * list ref) : AdapterCall :=
  A_findMany g.1 (map (λ r, rec_id (getRecord w r)) g.2) owner resolver.

(** A step that leaves every record's id and type, the adapters and the
    adapter's call log as they were. *)
Definition same_records (w w' : World) : Prop :=
  (∀ r, rec_id (getRecord w' r) = rec_id (getRecord w r) ∧
        rec_type (getRecord w' r) = rec_type (getRecord w r)) ∧
  adapters w' = adapters w ∧ adapterLog w' = adapterLog w.

(** The id [createRecord] settles on: the one given, or else the one the
    adapter's [generateIdForRecord] hook answers, or else [null]; coerced. *)
Definition createdId (generateIdForRecord : Adapter → option (World → jsval))
    (w : World) (type : EntityType) (properties : option Payload) : jsval :=
  let given := match properties with Some p => payload_id p | None => JUndefined end in
  coerceId
    (if looseEqNull given then
       match adapters w type with
       | Some a =>
           match generateIdForRecord a with
           | Some hook => hook w
           | None => JNull
           end
       | None => JNull
       end
     else given).

(** An adapter's missing [generateIdForRecord] hook. *)
Definition noIdHook : Adapter → option (World → jsval) := λ _, None.

(** A [generateIdForRecord] hook that numbers the records from 100. *)
Definition countingIdHook : Adapter → option (World → jsval) :=
  λ _, Some (λ w, JNum (Z.of_nat (100 + length (heap w)))).

(** What the store may rely on of [recordArrayManager.recordDidChange]: it
    returns, and it leaves the records, the type maps and the adapter's
    call log alone (it works on record arrays). *)
Definition manager_only (recordDidChange : ref → M unit) : Prop :=
  ∀ r w, ∃ w', recordDidChange r w = (w', Return tt) ∧
               heap w' = heap w ∧ typeMaps w' = typeMaps w ∧
               adapterLog w' = adapterLog w.

(** A [recordDidChange] that adds the record to every array of its type. *)
Definition addToArraysOfType (record : ref) : M unit :=
  modify (λ w, set_arrays
    (map (λ a, if decide (ra_type a = rec_type (getRecord w record))
               then ra_set_content (λ c, c ++ [record]) a else a)) w).

(** The commit call a flush makes for one queued tuple, chosen by the
    record's flags in [w]. *)
Definition flushCall (w : World) (tuple : ref * pref) : AdapterCall :=
  let '(record, resolver) := tuple in
  let o := getRecord w record in
  if isNew o then A_createRecord (rec_type o) record resolver
  else if isDeleted o then A_deleteRecord (rec_type o) record resolver
  else A_updateRecord (rec_type o) record resolver.

(** Every type has an adapter, and no adapter saves records from inside a
    commit hook. *)
Definition adapters_never_call_back (w : World) : Prop :=
  ∀ T, ∃ a, adapters w T = Some a ∧ ∀ c, onCommit a c = [].

(** The index is sound: whatever [idToRecord] of a type holds under a key
    is a live record of that type whose id has that key as its string form
    and which is in the type's record list. *)
Definition index_sound (w : World) : Prop :=
  ∀ T k r, idToRecordOf w T !! k = Some r →
    r < length (heap w) ∧
    rec_type (getRecord w r) = T ∧
    toString (rec_id (getRecord w r)) = k ∧
    r ∈ recordsOf w T.

(** A step that changes neither the type maps, nor the number of records,
    nor any record's id or type. *)
Definition same_index (w w' : World) : Prop :=
  typeMaps w' = typeMaps w ∧ length (heap w') = length (heap w) ∧
  ∀ r, rec_id (getRecord w' r) = rec_id (getRecord w r) ∧
       rec_type (getRecord w' r) = rec_type (getRecord w r).

(** ** Sample worlds *)

(** An adapter that implements every hook and never calls back. *)
Definition quietAdapter : Adapter :=
  {| implements := λ _, true; onCommit := λ _, [] |}.

(** An adapter whose [createRecord] hook, asked to create record 0, saves
    record 1 on the spot (a parent saving its child, say). *)
Definition cascadingAdapter : Adapter :=
  {| implements := λ _, true;
     onCommit := λ c, match c with A_createRecord _ 0 _ => [(1, 1)] | _ => [] end |}.

Definition Person : EntityType := 7.

(** A store holding two newly created records without server ids (record 0
    and record 1, as two [createRecord] calls leave them), two deferreds
    made for their saves, and the cascading adapter. *)
Definition twoNewRecords : World :=
  {| heap := [ {| rec_id := JNull; rec_type := Person; rec_state := New |};
               {| rec_id := JNull; rec_type := Person; rec_state := New |} ];
     arrays := [];
     promises := [Pending; Pending];
     typeMaps := {[ Person := {| idToRecord := ∅; records := [0; 1];
                                 metadata := ∅; findAllCache := None |} ]};
     _pendingSave := [];
     recordArrayManager := {| filteredRecordArrays := []; waitingRecordArrays := [] |};
     runOnce := [];
     adapters := λ _, Some cascadingAdapter;
     adapterLog := [] |}.

(** A store holding one loaded record with local changes (record 0, id
    "1"), two deferreds made for its saves, and the quiet adapter. *)
Definition oneDirtyRecord : World :=
  {| heap := [ {| rec_id := JStr "1"; rec_type := Person; rec_state := Dirty |} ];
     arrays := [];
     promises := [Pending; Pending];
     typeMaps := {[ Person := {| idToRecord := {[ "1" := 0 ]}; records := [0];
                                 metadata := ∅; findAllCache := None |} ]};
     _pendingSave := [];
     recordArrayManager := {| filteredRecordArrays := []; waitingRecordArrays := [] |};
     runOnce := [];
     adapters := λ _, Some quietAdapter;
     adapterLog := [] |}.

(** A step that keeps the adapters and the call log and only appends to
    the pending-save queue. *)
Definition queue_grows (w w' : World) : Prop :=
  adapters w' = adapters w ∧ adapterLog w' = adapterLog w ∧
  ∃ extra, _pendingSave w' = _pendingSave w ++ extra.

Definition freshStore : World := init (λ _, Some quietAdapter).

(** * Identifier coercion *)

Lemma coerceId_null_iff (v : jsval) : coerceId v = JNull ↔ v = JNull ∨ v = JUndefined.
Proof.
  destruct v; cbn; split; intros H; try discriminate; auto;
    destruct H; discriminate.
Qed.

Lemma coerceId_string (s : string) : coerceId (JStr s) = JStr s.
Proof. reflexivity. Qed.

Lemma coerceId_number (n : Z) : coerceId (JNum n) = JStr (pretty n).
Proof. reflexivity. Qed.

Lemma coerceId_idempotent (v : jsval) : coerceId (coerceId v) = coerceId v.
Proof. destruct v; reflexivity. Qed.

Lemma toString_coerceId (v : jsval) :
  looseEqNull v = false → toString (coerceId v) = toString v.
Proof. destruct v; cbn; intros; congruence. Qed.

Lemma truthy_coerceId_string (s : string) : truthy (JStr s) = true ↔ s ≠ "".
Proof.
  cbn. rewrite negb_true_iff. split.
  - intros H ->. discriminate.
  - intros H. destruct (String.eqb_spec s ""); congruence.
Qed.

(** C7.  [coerceId] sends [null] and [undefined], and nothing else, to
    [null]; every other value goes to its string form: whatever the value,
    the result is [null] exactly when [id == null] and is [id + '']
    otherwise.  On the kinds of value an identifier is documented to have,
    a string goes to itself and a number that is a safe integer to its
    decimal digits.  Hence [coerceId(1)] equals [coerceId("1")], a safe
    integer and its printed form are coerced alike, [coerceId(null)] and
    [coerceId(undefined)] are both [null], and [coerceId(0)] is the string
    ["0"], not [null]. *)
Theorem coerceId_canonical :
  (∀ (V : Type) (eqNull : V → bool) (plusEmpty : V → string) (v : V),
     (coerceIdOf eqNull plusEmpty v = None ↔ eqNull v = true) ∧
     (eqNull v = false → coerceIdOf eqNull plusEmpty v = Some (plusEmpty v))) ∧
  (∀ v, coerceId v =
        match coerceIdOf looseEqNull toString v with
        | None => JNull
        | Some s => JStr s
        end) ∧
  (∀ v, looseEqNull v = true ↔ v = JNull ∨ v = JUndefined) ∧
  (∀ v, coerceId v = JNull ↔ v = JNull ∨ v = JUndefined) ∧
  (∀ v, isJsValue v = true →
        coerceId v =
        if decide (v = JNull ∨ v = JUndefined) then JNull else JStr (toString v)) ∧
  (∀ n : Z, safeInteger n = true → coerceId (JNum n) = coerceId (JStr (pretty n))) ∧
  (∀ s, coerceId (JStr s) = JStr s) ∧
  coerceId (JNum 1) = coerceId (JStr "1") ∧
  coerceId JNull = JNull ∧ coerceId JUndefined = JNull ∧
  coerceId (JNum 0) = JStr "0" ∧ coerceId (JNum 0) ≠ JNull.
Proof.
  split.
  { intros V eqNull plusEmpty v. unfold coerceIdOf.
    destruct (eqNull v); split; done. }
  split; [intros v; unfold coerceId, coerceIdOf; by destruct (looseEqNull v)|].
  split.
  { intros v. destruct v; cbn; split; intros H; try done; auto;
      destruct H; discriminate. }
  split; [exact coerceId_null_iff|].
  split.
  { intros v _. case_decide as Hv.
    - by apply coerceId_null_iff.
    - destruct v; try reflexivity; exfalso; auto. }
  repeat split; try reflexivity. discriminate.
Qed.

Lemma coerceId_canonical_witness :
  coerceId (JNum 9007199254740991) = coerceId (JStr "9007199254740991") ∧
  coerceId (JNum (-12)) = JStr "-12".
Proof.
  destruct coerceId_canonical as (_ & _ & _ & _ & Hform & Hnum & _).
  split.
  - exact (Hnum 9007199254740991%Z eq_refl).
  - exact (Hform (JNum (-12)) eq_refl).
Defined.

(** * The identity map *)

Ltac munfold :=
  unfold bind, ret, throw, gets, modify, assert, when in *.

Lemma typeMapFor_hit (w : World) (type : EntityType) (typeMap : TypeMap) :
  typeMaps w !! type = Some typeMap → typeMapFor type w = (w, Return typeMap).
Proof. intros H. unfold typeMapFor. by rewrite H. Qed.

Lemma is_Some_bool {A} (o : option A) :
  bool_decide (is_Some o) = match o with Some _ => true | None => false end.
Proof.
  destruct o; [apply bool_decide_eq_true_2; eauto|].
  apply bool_decide_eq_false_2. by intros [? ?].
Qed.

Ltac view_simpl :=
  unfold idToRecordOf, recordsOf, knownRecords, findAllCacheOf, sinceTokenOf, typeMapOf; cbn;
  rewrite ?lookup_alter_eq, ?lookup_insert_eq; cbn.

Lemma slotOf_own (m : gmap string ref) (k : string) (r : ref) :
  m !! k = Some r → slotOf m k = Own r.
Proof. intros H. unfold slotOf. by rewrite H. Qed.

Lemma slotOf_absent (m : gmap string ref) (k : string) :
  m !! k = None → inheritedKey k = false → slotOf m k = Absent.
Proof. intros H Hk. unfold slotOf. by rewrite H, Hk. Qed.

Lemma slotOf_inherited (m : gmap string ref) (k : string) :
  m !! k = None → inheritedKey k = true → slotOf m k = Inherited.
Proof. intros H Hk. unfold slotOf. by rewrite H, Hk. Qed.

(** The keys of the identifiers that are no identifier ([null],
    [undefined]) and of the empty string are not inherited. *)
Lemma inheritedKey_falsy_string (s : string) :
  truthy (JStr s) = false → inheritedKey s = false.
Proof.
  cbn. destruct (String.eqb_spec s ""); [subst|done]. by intros _.
Qed.

Lemma inheritedKey_coerceId_null (v : jsval) :
  looseEqNull v = true → inheritedKey (toString (coerceId v)) = false.
Proof. intros Hv. unfold coerceId. by rewrite Hv. Qed.

Lemma buildRecord_fresh (w : World) (type : EntityType) (id : jsval) :
  truthy id = false ∨
    (idToRecordOf w type !! toString id = None ∧ inheritedKey (toString id) = false) →
  ∃ w', buildRecord type id None w = (w', Return (length (heap w))) ∧ built w type id w'.
Proof.
  intros Hfree. unfold buildRecord, typeMapFor, updateTypeMap, _create.
  munfold. unfold idToRecordOf in Hfree.
  destruct (typeMaps w !! type) as [typeMap|] eqn:Htm; cbn.
  - destruct (truthy id) eqn:Hid; cbn.
    + destruct Hfree as [|[Hfree Hkey]]; [done|].
      rewrite (slotOf_absent _ _ Hfree Hkey). cbn.
      eexists; split; [reflexivity|].
      split; try done; view_simpl; rewrite ?Htm, ?Hid; try done.
      intros type' Hne. by rewrite !lookup_alter_ne.
    + eexists; split; [reflexivity|].
      split; try done; view_simpl; rewrite ?Htm, ?Hid; try done.
      intros type' Hne. by rewrite !lookup_alter_ne.
  - destruct (truthy id) eqn:Hid; cbn.
    + destruct Hfree as [|[Hfree Hkey]]; [done|].
      rewrite (slotOf_absent _ _ (lookup_empty _) Hkey). cbn.
      eexists; split; [reflexivity|].
      split; try done; view_simpl; rewrite ?Htm, ?Hid; try done.
      intros type' Hne. by rewrite !lookup_alter_ne, lookup_insert_ne.
    + eexists; split; [reflexivity|].
      split; try done; view_simpl; rewrite ?Htm, ?Hid; try done.
      intros type' Hne. by rewrite !lookup_alter_ne, lookup_insert_ne.
Qed.

Lemma bind_Return {A B} (c : M A) (k : A → M B) (w w' : World) (a : A) :
  c w = (w', Return a) → bind c k w = k a w'.
Proof. intros H. unfold bind. by rewrite H. Qed.

Lemma bind_Throw {A B} (c : M A) (k : A → M B) (w w' : World) (e : Error) :
  c w = (w', Throw e) → bind c k w = (w', Throw e).
Proof. intros H. unfold bind. by rewrite H. Qed.

Lemma bind_Outside {A B} (c : M A) (k : A → M B) (w w' : World) (x : Exit) :
  c w = (w', Outside x) → bind c k w = (w', Outside x).
Proof. intros H. unfold bind. by rewrite H. Qed.

Lemma typeMapFor_eq (w : World) (type : EntityType) :
  typeMapFor type w = (ensureTypeMap type w, Return (typeMapOf w type)).
Proof.
  unfold typeMapFor, ensureTypeMap, typeMapOf.
  by destruct (typeMaps w !! type).
Qed.

Lemma ensureTypeMap_lookup (w : World) (type : EntityType) :
  typeMaps (ensureTypeMap type w) !! type = Some (typeMapOf w type).
Proof.
  unfold ensureTypeMap, typeMapOf.
  destruct (typeMaps w !! type) eqn:H; cbn; [done|]. by rewrite lookup_insert_eq.
Qed.

Lemma ensureTypeMap_typeMapOf (w : World) (type type' : EntityType) :
  typeMapOf (ensureTypeMap type w) type' = typeMapOf w type'.
Proof.
  unfold ensureTypeMap, typeMapOf.
  destruct (typeMaps w !! type) eqn:H; cbn; [done|].
  destruct (decide (type = type')) as [<-|Hne].
  - by rewrite lookup_insert_eq, H.
  - by rewrite lookup_insert_ne.
Qed.

Lemma ensureTypeMap_idem (w : World) (type : EntityType) :
  ensureTypeMap type (ensureTypeMap type w) = ensureTypeMap type w.
Proof.
  unfold ensureTypeMap at 1. by rewrite ensureTypeMap_lookup.
Qed.

Lemma idToRecordOf_typeMapOf (w : World) (type : EntityType) :
  idToRecordOf w type = idToRecord (typeMapOf w type).
Proof. unfold idToRecordOf, typeMapOf. by destruct (typeMaps w !! type). Qed.

Lemma recordsOf_typeMapOf (w : World) (type : EntityType) :
  recordsOf w type = records (typeMapOf w type).
Proof. unfold recordsOf, knownRecords, typeMapOf. by destruct (typeMaps w !! type). Qed.

Lemma findAllCacheOf_typeMapOf (w : World) (type : EntityType) :
  findAllCacheOf w type = findAllCache (typeMapOf w type).
Proof. unfold findAllCacheOf, typeMapOf. by destruct (typeMaps w !! type). Qed.

Lemma sinceTokenOf_typeMapOf (w : World) (type : EntityType) :
  sinceTokenOf w type = default JUndefined (metadata (typeMapOf w type) !! "since").
Proof. unfold sinceTokenOf, typeMapOf. by destruct (typeMaps w !! type). Qed.

Lemma ensureTypeMap_hit (w : World) (type : EntityType) (k : string) (r : ref) :
  idToRecordOf w type !! k = Some r → ensureTypeMap type w = w.
Proof.
  unfold idToRecordOf, ensureTypeMap.
  destruct (typeMaps w !! type); [done|]. by rewrite lookup_empty.
Qed.

Lemma buildRecord_ensured (w : World) (type : EntityType) (id : jsval) (d : option Payload) :
  buildRecord type id d (ensureTypeMap type w) = buildRecord type id d w.
Proof.
  unfold buildRecord.
  rewrite (bind_Return _ _ _ _ _ (typeMapFor_eq (ensureTypeMap type w) type)).
  rewrite (bind_Return _ _ _ _ _ (typeMapFor_eq w type)).
  by rewrite ensureTypeMap_idem, ensureTypeMap_typeMapOf.
Qed.

(** An identifier whose slot is taken: the lookups return the record in the
    slot and leave the world as it is. *)
Lemma recordForId_hit (w : World) (type : EntityType) (v : jsval) (r : ref) :
  idToRecordOf w type !! toString (coerceId v) = Some r →
  recordForId type v w = (w, Return r).
Proof.
  intros H. unfold recordForId.
  rewrite (bind_Return _ _ _ _ _ (typeMapFor_eq w type)).
  rewrite <- idToRecordOf_typeMapOf, (slotOf_own _ _ _ H).
  by rewrite (ensureTypeMap_hit _ _ _ _ H).
Qed.

Lemma hasRecordForId_eq (w : World) (type : EntityType) (v : jsval) :
  hasRecordForId type v w =
    (ensureTypeMap type w,
     Return (slotTruthy (slotAt w type (toString (coerceId v))))).
Proof.
  unfold hasRecordForId, slotAt.
  rewrite (bind_Return _ _ _ _ _ (typeMapFor_eq w type)).
  by rewrite <- idToRecordOf_typeMapOf.
Qed.

Lemma getById_hit (w : World) (type : EntityType) (v : jsval) (r : ref) :
  idToRecordOf w type !! toString (coerceId v) = Some r →
  getById type v w = (w, Return r).
Proof.
  intros H. unfold getById.
  rewrite (bind_Return _ _ _ _ _ (hasRecordForId_eq w type v)).
  unfold slotAt. rewrite (slotOf_own _ _ _ H), (ensureTypeMap_hit _ _ _ _ H).
  by apply recordForId_hit.
Qed.

(** A free slot: the lookups build a record at the next heap address. *)
Lemma recordForId_miss (w : World) (type : EntityType) (v : jsval) :
  idToRecordOf w type !! toString (coerceId v) = None →
  inheritedKey (toString (coerceId v)) = false →
  ∃ w', recordForId type v w = (w', Return (length (heap w))) ∧
        built w type (coerceId v) w'.
Proof.
  intros H Hkey. unfold recordForId.
  rewrite (bind_Return _ _ _ _ _ (typeMapFor_eq w type)).
  rewrite <- idToRecordOf_typeMapOf, (slotOf_absent _ _ H Hkey), buildRecord_ensured.
  apply buildRecord_fresh. by right.
Qed.

Lemma getById_miss (w : World) (type : EntityType) (v : jsval) :
  idToRecordOf w type !! toString (coerceId v) = None →
  inheritedKey (toString (coerceId v)) = false →
  ∃ w', getById type v w = (w', Return (length (heap w))) ∧ built w type v w'.
Proof.
  intros H Hkey. unfold getById.
  rewrite (bind_Return _ _ _ _ _ (hasRecordForId_eq w type v)).
  unfold slotAt. rewrite (slotOf_absent _ _ H Hkey). cbn [slotTruthy].
  rewrite buildRecord_ensured.
  apply buildRecord_fresh.
  destruct (looseEqNull v) eqn:Hv.
  - left. by destruct v.
  - right. by rewrite <- (toString_coerceId v Hv).
Qed.

(** An inherited key with no record of its own: the plain object answers
    with the inherited property.  [hasRecordForId] says yes, the lookups
    build nothing and come back with that property, and [buildRecord]
    refuses the key. *)
Lemma recordForId_inherited (w : World) (type : EntityType) (v : jsval) :
  idToRecordOf w type !! toString (coerceId v) = None →
  inheritedKey (toString (coerceId v)) = true →
  recordForId type v w =
    (ensureTypeMap type w, Outside (InheritedProperty (toString (coerceId v)))).
Proof.
  intros H Hkey. unfold recordForId.
  rewrite (bind_Return _ _ _ _ _ (typeMapFor_eq w type)).
  by rewrite <- idToRecordOf_typeMapOf, (slotOf_inherited _ _ H Hkey).
Qed.

Lemma getById_inherited (w : World) (type : EntityType) (v : jsval) :
  idToRecordOf w type !! toString (coerceId v) = None →
  inheritedKey (toString (coerceId v)) = true →
  getById type v w =
    (ensureTypeMap type w, Outside (InheritedProperty (toString (coerceId v)))).
Proof.
  intros H Hkey. unfold getById.
  rewrite (bind_Return _ _ _ _ _ (hasRecordForId_eq w type v)).
  unfold slotAt. rewrite (slotOf_inherited _ _ H Hkey). cbn.
  assert (Hidx : idToRecordOf (ensureTypeMap type w) type = idToRecordOf w type)
    by (by rewrite !idToRecordOf_typeMapOf, ensureTypeMap_typeMapOf).
  rewrite (recordForId_inherited (ensureTypeMap type w) type v); [|by rewrite Hidx|done].
  by rewrite ensureTypeMap_idem.
Qed.

Lemma buildRecord_inherited
    (w : World) (type : EntityType) (id : jsval) (data : option Payload) :
  truthy id = true →
  idToRecordOf w type !! toString id = None →
  inheritedKey (toString id) = true →
  buildRecord type id data w =
    (ensureTypeMap type w, Throw (AssertionFailed IdAlreadyUsed)).
Proof.
  intros Hid H Hkey. unfold buildRecord.
  rewrite (bind_Return _ _ _ _ _ (typeMapFor_eq w type)).
  by rewrite <- idToRecordOf_typeMapOf, (slotOf_inherited _ _ H Hkey), Hid.
Qed.

(** * Single-record fetch *)


Lemma findById_step (w w1 : World) (type : EntityType) (v : jsval) (r : ref) :
  getById type v w = (w1, Return r) →
  findById type v w =
    if isEmpty (getRecord w1 r) then fetchRecord r w1 else resolve r w1.
Proof.
  intros H. unfold findById. rewrite (bind_Return _ _ _ _ _ H).
  unfold bind, gets. by destruct (isEmpty (getRecord w1 r)).
Qed.




Lemma findById_cached (w : World) (type : EntityType) (v : jsval) (r : ref) :
  idToRecordOf w type !! toString (coerceId v) = Some r →
  isEmpty (getRecord w r) = false →
  findById type v w =
    (set_promises (λ h, h ++ [Fulfilled r]) w, Return (length (promises w))).
Proof.
  intros Hhit Hempty.
  by rewrite (findById_step _ _ _ _ _ (getById_hit _ _ _ _ Hhit)), Hempty.
Qed.

Lemma built_getRecord (w w' : World) (type : EntityType) (id : jsval) :
  built w type id w' →
  getRecord w' (length (heap w)) = {| rec_id := id; rec_type := type; rec_state := Empty |}.
Proof.
  intros [Hheap _ _ _ _ _]. unfold getRecord. rewrite Hheap.
  by rewrite lookup_total_app_r, Nat.sub_diag.
Qed.





(** * Identity of records *)

Lemma buildRecord_taken
    (w : World) (type : EntityType) (id : jsval) (data : option Payload) (r : ref) :
  truthy id = true →
  idToRecordOf w type !! toString id = Some r →
  buildRecord type id data w = (w, Throw (AssertionFailed IdAlreadyUsed)).
Proof.
  intros Hid Hhit. unfold buildRecord.
  rewrite (bind_Return _ _ _ _ _ (typeMapFor_eq w type)).
  rewrite <- idToRecordOf_typeMapOf, (slotOf_own _ _ _ Hhit), Hid.
  by rewrite (ensureTypeMap_hit _ _ _ _ Hhit).
Qed.





Lemma ensureTypeMap_idToRecordOf (w : World) (type type' : EntityType) :
  idToRecordOf (ensureTypeMap type w) type' = idToRecordOf w type'.
Proof. by rewrite !idToRecordOf_typeMapOf, ensureTypeMap_typeMapOf. Qed.








(** * Materialization by lookup *)




(** * Assigning a server identifier *)

Lemma updateId_conflict (w : World) (record : ref) (d : Payload) :
  rec_id (getRecord w record) ≠ JNull →
  coerceId (payload_id d) ≠ rec_id (getRecord w record) →
  updateId record d w = (w, Throw (AssertionFailed IdentityConflict)).
Proof.
  intros Hold Hnew. unfold updateId. munfold. cbn.
  by rewrite !bool_decide_eq_false_2.
Qed.

Lemma updateId_ok (w : World) (record : ref) (d : Payload) :
  record < length (heap w) →
  rec_id (getRecord w record) = JNull ∨
    coerceId (payload_id d) = rec_id (getRecord w record) →
  ∃ w', updateId record d w = (w', Return tt) ∧
        idToRecordOf w' (rec_type (getRecord w record))
          !! toString (coerceId (payload_id d)) = Some record ∧
        getRecord w' record = with_id (coerceId (payload_id d)) (getRecord w record) ∧
        adapterLog w' = adapterLog w.
Proof.
  intros Hlt Hok. unfold updateId, typeMapFor, updateTypeMap, updateRecord.
  munfold. cbn.
  assert (bool_decide (rec_id (getRecord w record) = JNull)
          || bool_decide (coerceId (payload_id d) = rec_id (getRecord w record)) = true)
    as ->.
  { destruct Hok as [H|H].
    - by rewrite (bool_decide_eq_true_2 _ H).
    - rewrite (bool_decide_eq_true_2 _ H). apply orb_true_r. }
  unfold getRecord. cbn.
  destruct (typeMaps w !! rec_type (heap w !!! record)) as [typeMap|] eqn:Htm; cbn;
    (eexists; split; [reflexivity|]); cbn;
    (split; [view_simpl; rewrite ?Htm; cbn; apply lookup_insert_eq|]);
    (split; [by rewrite list_lookup_total_insert_eq|done]).
Qed.

Lemma didReceiveId_conflict (w : World) (record : ref) (id : jsval) :
  rec_id (getRecord w record) ≠ JUndefined →
  id ≠ rec_id (getRecord w record) →
  ∃ w', didReceiveId record id w = (w', Throw (AssertionFailed IdentityConflict)) ∧
        heap w' = heap w ∧ ∀ type, idToRecordOf w' type = idToRecordOf w type.
Proof.
  intros Hold Hnew. unfold didReceiveId.
  unfold bind at 1. unfold gets at 1.
  rewrite (bind_Return _ _ _ _ _ (typeMapFor_eq w _)).
  exists (ensureTypeMap (rec_type (getRecord w record)) w).
  assert (Hheap : heap (ensureTypeMap (rec_type (getRecord w record)) w) = heap w).
  { unfold ensureTypeMap. by destruct (typeMaps w !! _). }
  split; [|split; [done|]].
  - munfold. unfold getRecord in *. rewrite Hheap.
    by rewrite !bool_decide_eq_false_2.
  - intros type. by rewrite !idToRecordOf_typeMapOf, ensureTypeMap_typeMapOf.
Qed.

(** [didReceiveId] has no successful path in this store. *)
Lemma didReceiveId_always_throws (w : World) (record : ref) (id : jsval) :
  ∃ w' e, didReceiveId record id w = (w', Throw e).
Proof.
  unfold didReceiveId.
  unfold bind at 1. unfold gets at 1.
  rewrite (bind_Return _ _ _ _ _ (typeMapFor_eq w _)).
  munfold.
  destruct (bool_decide _ || bool_decide _); eauto.
Qed.

(** The part of the acknowledgement contract that holds.  An
    acknowledgement that would give a record an identifier other than the
    one it carries is refused with the assertion 'An adapter cannot assign
    a new id to a record that already has an id' ([IdentityConflict]), and
    nothing is changed: [updateId], and with it [didSaveRecord] with data,
    when the record's id is not [null] and is not the coerced new id;
    [didReceiveId] when the record carries an id (anything but
    [undefined]) other than the new one.  When [updateId] accepts (the
    record had a [null] id, or the same id), the new id is indexed to the
    record in its type's [idToRecord] and becomes the record's id. *)
Theorem assigned_id_conflict (w : World) (record : ref) :
  (∀ d, rec_id (getRecord w record) ≠ JNull →
        coerceId (payload_id d) ≠ rec_id (getRecord w record) →
        updateId record d w = (w, Throw (AssertionFailed IdentityConflict)) ∧
        didSaveRecord record (Some d) w = (w, Throw (AssertionFailed IdentityConflict))) ∧
  (∀ id, rec_id (getRecord w record) ≠ JUndefined →
         id ≠ rec_id (getRecord w record) →
         ∃ w', didReceiveId record id w = (w', Throw (AssertionFailed IdentityConflict)) ∧
               heap w' = heap w ∧ ∀ type, idToRecordOf w' type = idToRecordOf w type) ∧
  (∀ d, record < length (heap w) →
        rec_id (getRecord w record) = JNull ∨
          coerceId (payload_id d) = rec_id (getRecord w record) →
        ∃ w', updateId record d w = (w', Return tt) ∧
              idToRecordOf w' (rec_type (getRecord w record))
                !! toString (coerceId (payload_id d)) = Some record ∧
              rec_id (getRecord w' record) = coerceId (payload_id d)).
Proof.
  split; [|split].
  - intros d Hold Hnew. split; [by apply updateId_conflict|].
    unfold didSaveRecord.
    by rewrite (bind_Throw _ _ _ _ _ (updateId_conflict w record d Hold Hnew)).
  - intros id. apply didReceiveId_conflict.
  - intros d Hlt Hok.
    destruct (updateId_ok w record d Hlt Hok) as (w' & Hup & Hidx & Hrec & _).
    exists w'. split; [done|]. split; [done|]. by rewrite Hrec.
Qed.

Lemma assigned_id_conflict_witness :
  let created := buildRecord Person JNull None freshStore in
  let found := buildRecord Person (JStr "1") None freshStore in
  updateId 0 {| payload_id := JNum 2 |} found.1 =
    (found.1, Throw (AssertionFailed IdentityConflict)) ∧
  (∃ w', didReceiveId 0 (JStr "2") found.1 =
           (w', Throw (AssertionFailed IdentityConflict))) ∧
  (∃ w', updateId 0 {| payload_id := JNum 42 |} created.1 = (w', Return tt) ∧
         idToRecordOf w' Person !! "42" = Some 0 ∧
         rec_id (getRecord w' 0) = JStr "42").
Proof.
  intros created found.
  destruct (assigned_id_conflict found.1 0) as (Hup & Hrecv & _).
  destruct (assigned_id_conflict created.1 0) as (_ & _ & Hok).
  split; [|split].
  - apply Hup; vm_compute; discriminate.
  - destruct (Hrecv (JStr "2")) as (w' & H & _); [vm_compute; discriminate..|].
    by exists w'.
  - apply (Hok {| payload_id := JNum 42 |}); vm_compute; [lia|by left].
Defined.

(** C5.  [didReceiveId] can not succeed, and it indexes nothing.  Whatever
    the store, the record and the id, the call ends in an exception and
    leaves every [idToRecord] as it was: past its assertion it writes to
    [typeMap.idToCid] and [this.clientIdToId], which no code creates.  A
    record that [createRecord] has just made, without an id, carries the id
    [null]; the assertion, which lets only [undefined] pass for a missing
    id, refuses to give it the id "5" as if it had another one.  For a
    record whose id is [undefined] the assertion passes and the write
    raises a TypeError.  In both cases "5" is not indexed.  The sibling
    path [updateId], given the same new record and id, accepts and indexes
    "5" to the record. *)
Theorem didReceiveId_cannot_succeed :
  (∀ w record id,
     ∃ w' e, didReceiveId record id w = (w', Throw e) ∧
             ∀ type, idToRecordOf w' type = idToRecordOf w type) ∧
  let created := createRecord noIdHook Person None freshStore in
  let looked := getById Person JUndefined freshStore in
  created.2 = Return 0 ∧ rec_id (getRecord created.1 0) = JNull ∧
  (didReceiveId 0 (JStr "5") created.1).2 = Throw (AssertionFailed IdentityConflict) ∧
  idToRecordOf (didReceiveId 0 (JStr "5") created.1).1 Person !! "5" = None ∧
  looked.2 = Return 0 ∧ rec_id (getRecord looked.1 0) = JUndefined ∧
  (didReceiveId 0 (JStr "5") looked.1).2 = Throw TypeError ∧
  idToRecordOf (didReceiveId 0 (JStr "5") looked.1).1 Person !! "5" = None ∧
  (updateId 0 {| payload_id := JStr "5" |} created.1).2 = Return tt ∧
  idToRecordOf (updateId 0 {| payload_id := JStr "5" |} created.1).1 Person !! "5"
    = Some 0.
Proof.
  split.
  - intros w record id. unfold didReceiveId.
    unfold bind at 1. unfold gets at 1.
    rewrite (bind_Return _ _ _ _ _ (typeMapFor_eq w _)).
    munfold.
    destruct (bool_decide _ || bool_decide _); eexists _, _; (split; [reflexivity|]);
      intros type; apply ensureTypeMap_idToRecordOf.
  - vm_compute. repeat split.
Qed.

(** What [updateId] does not check: whether the new id's slot already
    belongs to another record.  Record 0 is created without an id, a lookup
    materializes record 1 for "5", and the adapter then acknowledges record 0
    with id 5: the slot moves from record 1 to record 0, and both records,
    still in the type's record list, carry the id "5". *)
Lemma updateId_takes_over_occupied_slot :
  let created := buildRecord Person JNull None freshStore in
  let looked := getById Person (JStr "5") created.1 in
  let saved := updateId 0 {| payload_id := JNum 5 |} looked.1 in
  idToRecordOf looked.1 Person !! "5" = Some 1 ∧
  saved.2 = Return tt ∧
  idToRecordOf saved.1 Person !! "5" = Some 0 ∧
  recordsOf saved.1 Person = [0; 1] ∧
  rec_id (getRecord saved.1 0) = JStr "5" ∧
  rec_id (getRecord saved.1 1) = JStr "5".
Proof. vm_compute. repeat split. Qed.

(** * The "all" collection and findAll *)

Lemma all_cached (w : World) (type : EntityType) (array : aref) :
  findAllCacheOf w type = Some array → all type w = (w, Return array).
Proof.
  intros H. unfold all.
  rewrite (bind_Return _ _ _ _ _ (typeMapFor_eq w type)).
  rewrite <- findAllCacheOf_typeMapOf, H.
  unfold findAllCacheOf, ensureTypeMap in *.
  by destruct (typeMaps w !! type).
Qed.

Lemma all_first (w : World) (type : EntityType) :
  findAllCacheOf w type = None →
  ∃ w', all type w = (w', Return (length (arrays w))) ∧
        findAllCacheOf w' type = Some (length (arrays w)) ∧
        length (arrays w') = S (length (arrays w)) ∧
        sinceTokenOf w' type = sinceTokenOf w type ∧
        idToRecordOf w' type = idToRecordOf w type ∧
        heap w' = heap w ∧ promises w' = promises w ∧
        adapters w' = adapters w ∧ adapterLog w' = adapterLog w.
Proof.
  intros H. unfold all, typeMapFor, createArray, registerFilteredRecordArray,
    updateArray, updateTypeMap.
  munfold. unfold findAllCacheOf in H. cbn.
  destruct (typeMaps w !! type) as [typeMap|] eqn:Htm; cbn.
  - rewrite H. cbn. eexists; split; [reflexivity|]. cbn.
    repeat split; rewrite ?length_insert, ?length_app; cbn; try lia;
      view_simpl; by rewrite ?Htm.
  - eexists; split; [reflexivity|]. cbn.
    repeat split; rewrite ?length_insert, ?length_app; cbn; try lia;
      view_simpl; by rewrite ?Htm.
Qed.

Lemma fetchAll_eq (w : World) (type : EntityType) (array : aref) (a : Adapter) :
  adapters w type = Some a → implements a HFindAll = true →
  fetchAll type array w = (fetchingAll type array w, Return (length (promises w))).
Proof.
  intros Ha Hhook. unfold fetchAll, adapterForType.
  unfold bind at 1. unfold gets at 1.
  rewrite (bind_Return _ _ _ _ _ (typeMapFor_eq w type)).
  unfold defer, updateArray, callAdapter, adapterImplements, fetchingAll.
  munfold. cbn. rewrite Ha, is_Some_bool, Hhook. cbn.
  rewrite sinceTokenOf_typeMapOf.
  assert (Hp : promises (ensureTypeMap type w) = promises w).
  { unfold ensureTypeMap. by destruct (typeMaps w !! type). }
  by rewrite Hp.
Qed.

Lemma fetchingAll_views (w : World) (type : EntityType) (array : aref) :
  findAllCacheOf (fetchingAll type array w) type = findAllCacheOf w type ∧
  sinceTokenOf (fetchingAll type array w) type = sinceTokenOf w type ∧
  adapters (fetchingAll type array w) = adapters w ∧
  promises (fetchingAll type array w) = promises w ++ [Pending] ∧
  length (arrays (fetchingAll type array w)) = length (arrays w) ∧
  adapterLog (fetchingAll type array w) =
    adapterLog w ++ [A_findAll type (sinceTokenOf w type) (length (promises w))].
Proof.
  unfold fetchingAll, ensureTypeMap, findAllCacheOf, sinceTokenOf.
  destruct (typeMaps w !! type) as [typeMap|] eqn:Htm; cbn;
    rewrite ?Htm, ?lookup_insert_eq, ?length_insert; cbn; done.
Qed.

Lemma fetchingAll_isUpdating (w : World) (type : EntityType) (array : aref) :
  array < length (arrays w) →
  ra_isUpdating (getArray (fetchingAll type array w) array) = true.
Proof.
  intros Hlt. unfold getArray, fetchingAll. cbn.
  rewrite list_lookup_total_insert_eq; [done|].
  unfold ensureTypeMap. by destruct (typeMaps w !! type).
Qed.

Lemma didUpdateAll_clears (w : World) (type : EntityType) (array : aref) :
  findAllCacheOf w type = Some array → array < length (arrays w) →
  ∃ w', didUpdateAll type w = (w', Return tt) ∧
        ra_isUpdating (getArray w' array) = false ∧
        adapterLog w' = adapterLog w.
Proof.
  intros Hc Hlt. unfold didUpdateAll.
  rewrite (bind_Return _ _ _ _ _ (typeMapFor_eq w type)).
  rewrite <- findAllCacheOf_typeMapOf, Hc.
  assert (ensureTypeMap type w = w) as ->.
  { unfold findAllCacheOf, ensureTypeMap in *. by destruct (typeMaps w !! type). }
  unfold updateArray. munfold. eexists; split; [reflexivity|]. cbn.
  unfold getArray; cbn. by rewrite list_lookup_total_insert_eq.
Qed.

(** C6 (amended).  [fetchAll] sets the collection's [isUpdating] flag and
    hands a request to the adapter every time it is called: the flag is
    never consulted, so a second call made while the flag is still set
    issues a second [findAll] request with a second promise.
    [didUpdateAll] clears the flag of the type's cached collection. *)
Theorem fetchAll_always_requests
    (w : World) (type : EntityType) (array : aref) (a : Adapter) :
  adapters w type = Some a → implements a HFindAll = true →
  array < length (arrays w) →
  ∃ w1 w2 p1 p2,
    fetchAll type array w = (w1, Return p1) ∧
    ra_isUpdating (getArray w1 array) = true ∧
    fetchAll type array w1 = (w2, Return p2) ∧
    ra_isUpdating (getArray w2 array) = true ∧
    p1 ≠ p2 ∧
    adapterLog w2 =
      adapterLog w ++ [A_findAll type (sinceTokenOf w type) p1;
                       A_findAll type (sinceTokenOf w type) p2] ∧
    (findAllCacheOf w type = Some array →
     ∃ w3, didUpdateAll type w2 = (w3, Return tt) ∧
           ra_isUpdating (getArray w3 array) = false ∧
           adapterLog w3 = adapterLog w2).
Proof.
  intros Ha Hhook Hlt.
  destruct (fetchingAll_views w type array) as (Hc1 & Hs1 & Ha1 & Hp1 & Hl1 & Hlog1).
  destruct (fetchingAll_views (fetchingAll type array w) type array)
    as (Hc2 & Hs2 & Ha2 & Hp2 & Hl2 & Hlog2).
  exists (fetchingAll type array w), (fetchingAll type array (fetchingAll type array w)),
    (length (promises w)), (length (promises (fetchingAll type array w))).
  split; [by eapply fetchAll_eq|].
  split; [by apply fetchingAll_isUpdating|].
  split; [eapply fetchAll_eq; [by rewrite Ha1|done]|].
  split; [apply fetchingAll_isUpdating; lia|].
  split; [rewrite Hp1, length_app; cbn; lia|].
  split; [by rewrite Hlog2, Hlog1, Hs1, <- app_assoc|].
  intros Hc. apply didUpdateAll_clears; [by rewrite Hc2, Hc1|lia].
Qed.

Lemma fetchAll_always_requests_witness :
  let w := (all Person freshStore).1 in
  ∃ w1 w2 p1 p2,
    fetchAll Person 0 w = (w1, Return p1) ∧
    ra_isUpdating (getArray w1 0) = true ∧
    fetchAll Person 0 w1 = (w2, Return p2) ∧
    p1 ≠ p2 ∧
    adapterLog w2 = [A_findAll Person JUndefined p1; A_findAll Person JUndefined p2].
Proof.
  intros w.
  destruct (fetchAll_always_requests w Person 0 quietAdapter)
    as (w1 & w2 & p1 & p2 & H1 & Hu1 & H2 & _ & Hne & Hlog & _).
  - reflexivity.
  - reflexivity.
  - vm_compute. lia.
  - by exists w1, w2, p1, p2.
Defined.

(** C6 as stated fails: on a fresh store [findAll(Person)] sets
    [isUpdating], and a second [findAll(Person)] made while the flag is
    still set reaches the adapter again. *)
Lemma second_findAll_issues_second_request :
  let first := findAll Person freshStore in
  let second := findAll Person first.1 in
  first.2 = Return 0 ∧
  findAllCacheOf first.1 Person = Some 0 ∧
  ra_isUpdating (getArray first.1 0) = true ∧
  adapterLog first.1 = [A_findAll Person JUndefined 0] ∧
  second.2 = Return 1 ∧
  adapterLog second.1 = [A_findAll Person JUndefined 0; A_findAll Person JUndefined 1].
Proof. vm_compute. repeat split. Qed.

(** C9 (amended).  A type has exactly one "all" collection, cached in its
    type map: [all] always returns an array, every later [all] returns the
    same instance without changing the store, and the cache names it.
    [findAll] uses that same collection, marks it [isUpdating], and calls
    the adapter's [findAll] with the type's stored [since] token; what it
    returns is not the collection but a new pending promise, the one handed
    to the adapter. *)
Theorem all_is_singleton (w : World) (type : EntityType) :
  (∀ c, findAllCacheOf w type = Some c → c < length (arrays w)) →
  ∃ w1 array,
    all type w = (w1, Return array) ∧
    all type w1 = (w1, Return array) ∧
    findAllCacheOf w1 type = Some array ∧
    (∀ a, adapters w type = Some a → implements a HFindAll = true →
       ∃ w2 p,
         findAll type w = (w2, Return p) ∧
         all type w2 = (w2, Return array) ∧
         ra_isUpdating (getArray w2 array) = true ∧
         p = length (promises w) ∧
         promises w2 = promises w ++ [Pending] ∧
         adapterLog w2 = adapterLog w ++ [A_findAll type (sinceTokenOf w type) p]).
Proof.
  intros Hvalid.
  assert (∃ w1 array, all type w = (w1, Return array) ∧
            findAllCacheOf w1 type = Some array ∧ array < length (arrays w1) ∧
            sinceTokenOf w1 type = sinceTokenOf w type ∧
            promises w1 = promises w ∧ adapters w1 = adapters w ∧
            adapterLog w1 = adapterLog w)
    as (w1 & array & Hall & Hc & Hlt & Hs & Hp & Had & Hlog).
  { destruct (findAllCacheOf w type) as [c|] eqn:Hcache.
    - exists w, c. split; [by apply all_cached|]. repeat split; auto.
    - destruct (all_first w type Hcache)
        as (w' & H & Hc' & Hlen & Hs' & _ & _ & Hp' & Ha' & Hl').
      exists w', (length (arrays w)). repeat split; auto. lia. }
  exists w1, array. split; [done|].
  split; [by apply all_cached|]. split; [done|].
  intros a Ha Hhook.
  destruct (fetchingAll_views w1 type array) as (Hc1 & Hs1 & Ha1 & Hp1 & Hl1 & Hlog1).
  exists (fetchingAll type array w1), (length (promises w)).
  split.
  { unfold findAll. rewrite (bind_Return _ _ _ _ _ Hall), <- Hp.
    eapply fetchAll_eq; [by rewrite Had|done]. }
  split; [apply all_cached; by rewrite Hc1|].
  split; [by apply fetchingAll_isUpdating|].
  split; [done|].
  split; [by rewrite Hp1, Hp|].
  by rewrite Hlog1, Hlog, Hs, Hp.
Qed.

Lemma all_is_singleton_witness :
  let w := (metaForType Person "since" (JStr "t1") freshStore).1 in
  ∃ w1 array,
    all Person w = (w1, Return array) ∧
    all Person w1 = (w1, Return array) ∧
    ∃ w2 p,
      findAll Person w = (w2, Return p) ∧
      all Person w2 = (w2, Return array) ∧
      promises w2 = [Pending] ∧
      adapterLog w2 = [A_findAll Person (JStr "t1") p].
Proof.
  intros w.
  destruct (all_is_singleton w Person) as (w1 & array & H1 & H2 & _ & Hfind).
  - intros c Hc. vm_compute in Hc. discriminate.
  - exists w1, array. split; [done|]. split; [done|].
    destruct (Hfind quietAdapter) as (w2 & p & Hf & Ha & _ & _ & Hp & Hlog);
      [reflexivity..|].
    by exists w2, p.
Defined.

(** C9 as stated fails in one part: [findAll] does not return the "all"
    collection.  On a fresh store it returns promise 0, which is pending,
    while the collection is array 0 held in [findAllCache]. *)
Lemma findAll_returns_a_promise :
  let found := findAll Person freshStore in
  found.2 = Return 0 ∧
  promises found.1 !! 0 = Some Pending ∧
  findAllCacheOf found.1 Person = Some 0 ∧
  (all Person found.1).2 = Return 0 ∧
  V_promise 0 ≠ V_array 0.
Proof. vm_compute. repeat split. discriminate. Qed.

(** * Batched fetch *)

Section grouping.
Variable ty : ref → EntityType.

Lemma groupOf_groupPush (m : list (EntityType * list ref)) (T T' : EntityType) (r : ref) :
  groupOf (groupPush T r m) T' =
    if decide (T = T') then groupOf m T ++ [r] else groupOf m T'.
Proof.
  induction m as [|[t rs] m IH]; cbn.
  - by repeat case_decide.
  - destruct (decide (t = T)) as [->|Hne]; cbn.
    + repeat case_decide; congruence.
    + rewrite IH. repeat case_decide; congruence.
Qed.

Lemma groupPush_keys (m : list (EntityType * list ref)) (T : EntityType) (r : ref) :
  (groupPush T r m).*1 = if decide (T ∈ m.*1) then m.*1 else m.*1 ++ [T].
Proof.
  induction m as [|[t rs] m IH]; cbn.
  - case_decide as H; [by apply not_elem_of_nil in H|done].
  - destruct (decide (t = T)) as [->|Hne]; cbn.
    + rewrite decide_True by apply list_elem_of_here. done.
    + rewrite IH. destruct (decide (T ∈ m.*1)) as [Hin|Hnin].
      * rewrite decide_True by (by apply list_elem_of_further). done.
      * rewrite decide_False; [done|].
        intros [?|?]%elem_of_cons; congruence.
Qed.

Lemma groupOf_elem (m : list (EntityType * list ref)) (T : EntityType) (rs : list ref) :
  NoDup m.*1 → (T, rs) ∈ m → groupOf m T = rs.
Proof.
  induction m as [|[t rs'] m IH]; cbn; intros Hnd Hin.
  - by apply not_elem_of_nil in Hin.
  - apply NoDup_cons in Hnd as [Hnotin Hnd].
    apply elem_of_cons in Hin as [Heq|Hin].
    + inversion Heq; subst. by rewrite decide_True.
    + rewrite decide_False; [by apply IH|].
      intros ->. apply Hnotin.
      apply (list_elem_of_fmap_2 fst) in Hin. done.
Qed.

Lemma grouped_step (records : list ref) (m : list (EntityType * list ref)) (r : ref) :
  grouped ty records m → grouped ty (records ++ [r]) (groupPush (ty r) r m).
Proof.
  intros (Hnd & Hgr & Hkeys). split; [|split].
  - rewrite groupPush_keys. case_decide as Hin; [done|].
    apply NoDup_app. split; [done|]. split; [|apply NoDup_singleton].
    intros x Hx ->%list_elem_of_singleton. done.
  - intros T. rewrite groupOf_groupPush, filter_app, !Hgr.
    rewrite filter_cons, filter_nil.
    repeat case_decide; subst; try congruence. by rewrite app_nil_r.
  - intros T. rewrite groupPush_keys. split.
    + intros Hin.
      assert (T ∈ m.*1 ∨ T = ty r) as [Hold| ->].
      { case_decide; [by left|].
        apply elem_of_app in Hin as [?|?%list_elem_of_singleton]; auto. }
      * apply Hkeys in Hold as (r' & Hr' & Hty).
        exists r'. split; [apply elem_of_app; by left|done].
      * exists r. split; [|done]. apply elem_of_app. right.
        by apply list_elem_of_singleton.
    + intros (r' & Hr' & Hty).
      apply elem_of_app in Hr' as [Hr'| ->%list_elem_of_singleton].
      * assert (T ∈ m.*1) by (apply Hkeys; eauto).
        case_decide; [done|]. apply elem_of_app. by left.
      * subst T. case_decide; [done|]. apply elem_of_app. right.
        by apply list_elem_of_singleton.
Qed.

Lemma grouped_foldl (rest done : list ref) (m : list (EntityType * list ref)) :
  grouped ty done m →
  grouped ty (done ++ rest) (foldl (λ m r, groupPush (ty r) r m) m rest).
Proof.
  revert done m. induction rest as [|r rest IH]; intros done m Hm; cbn.
  - by rewrite app_nil_r.
  - replace (done ++ r :: rest) with ((done ++ [r]) ++ rest)
      by (by rewrite <- app_assoc).
    apply IH. by apply grouped_step.
Qed.

(** The groups are keyed by distinct types; each group is the records of
    its type in input order, and is not empty; every record's type has a
    group. *)
Lemma groups_partition (records : list ref) :
  let groups := foldl (λ m r, groupPush (ty r) r m) [] records in
  NoDup groups.*1 ∧
  (∀ T rs, (T, rs) ∈ groups →
           rs ≠ [] ∧ rs = filter (λ r, ty r = T) records) ∧
  (∀ r, r ∈ records → ty r ∈ groups.*1).
Proof.
  intros groups.
  assert (Hg : grouped ty records groups).
  { apply (grouped_foldl records [] []). split; [apply NoDup_nil_2|]. split.
    - done.
    - intros T. split; [by intros ?%not_elem_of_nil|].
      by intros (? & ?%not_elem_of_nil & _). }
  destruct Hg as (Hnd & Hgr & Hkeys).
  split; [done|]. split.
  - intros T rs Hin.
    assert (Hrs : rs = filter (λ r, ty r = T) records).
    { by rewrite <- Hgr, (groupOf_elem _ _ _ Hnd Hin). }
    split; [|done].
    assert (HT : T ∈ groups.*1) by (by apply (list_elem_of_fmap_2 fst) in Hin).
    apply Hkeys in HT as (r & Hr & Hty).
    intros Hnil. rewrite Hnil in Hrs. symmetry in Hrs.
    assert (r ∉ records); [|done].
    eapply filter_nil_not_elem_of; [exact Hrs|exact Hty].
  - intros r Hr. apply Hkeys. eauto.
Qed.
End grouping.

Lemma same_records_refl (w : World) : same_records w w.
Proof. by repeat split. Qed.

Lemma same_records_trans (w1 w2 w3 : World) :
  same_records w1 w2 → same_records w2 w3 → same_records w1 w3.
Proof.
  intros (Hr1 & Ha1 & Hl1) (Hr2 & Ha2 & Hl2). split; [|split]; [|congruence..].
  intros r. destruct (Hr1 r), (Hr2 r). split; congruence.
Qed.

Lemma forEach_same_records {A} (f : A → M unit) (l : list A) (w : World) :
  (∀ x w, ∃ w', f x w = (w', Return tt) ∧ same_records w w') →
  ∃ w', forEach l f w = (w', Return tt) ∧ same_records w w'.
Proof.
  intros Hf. revert w. induction l as [|x l IH]; intros w; cbn.
  - exists w. split; [done|apply same_records_refl].
  - destruct (Hf x w) as (w1 & H1 & Hs1). destruct (IH w1) as (w2 & H2 & Hs2).
    exists w2. split; [|by eapply same_records_trans].
    by rewrite (bind_Return _ _ _ _ _ H1).
Qed.

Lemma updateRecord_same_records (record : ref) (f : RecordState → RecordState) (w : World) :
  ∃ w', updateRecord record (with_state f) w = (w', Return tt) ∧ same_records w w'.
Proof.
  eexists; split; [reflexivity|]. split; [|done].
  intros r. unfold getRecord; cbn.
  destruct (decide (record = r)) as [->|Hne].
  - destruct (decide (r < length (heap w))) as [Hlt|Hge].
    + by rewrite list_lookup_total_insert_eq.
    + by rewrite list_insert_ge by lia.
  - by rewrite list_lookup_total_insert_ne.
Qed.

Lemma groupByType_ext (w w' : World) (records : list ref) :
  (∀ r, rec_type (getRecord w' r) = rec_type (getRecord w r)) →
  groupByType w' records = groupByType w records.
Proof.
  intros Hty. unfold groupByType. generalize (@nil (EntityType * list ref)).
  induction records as [|r records IH]; intros m; cbn; [done|].
  by rewrite Hty, IH.
Qed.

Lemma findManyCall_ext (w w' : World) (owner : ref) (resolver : pref)
    (groups : list (EntityType * list ref)) :
  (∀ r, rec_id (getRecord w' r) = rec_id (getRecord w r)) →
  map (findManyCall w' owner resolver) groups = map (findManyCall w owner resolver) groups.
Proof.
  intros Hid. apply map_ext. intros [T rs]. unfold findManyCall; cbn.
  f_equal. apply map_ext. intros r. apply Hid.
Qed.

Lemma forEach_fetchManyOfType
    (groups : list (EntityType * list ref)) (owner : ref) (resolver : pref) (w : World) :
  (∀ T, adapterImplements (adapters w T) HFindMany = true) →
  ∃ w', forEach groups (fetchManyOfType owner resolver) w = (w', Return tt) ∧
        adapterLog w' = adapterLog w ++ map (findManyCall w owner resolver) groups.
Proof.
  revert w. induction groups as [|[T rs] groups IH]; intros w Had; cbn.
  - exists w. by rewrite app_nil_r.
  - pose (w1 := set_adapterLog (λ l, l ++ [findManyCall w owner resolver (T, rs)]) w).
    assert (H1 : fetchManyOfType owner resolver (T, rs) w = (w1, Return tt)).
    { unfold fetchManyOfType, adapterForType, callAdapter. munfold.
      specialize (Had T). unfold adapterImplements in *.
      destruct (adapters w T) as [a|]; [|done].
      by rewrite is_Some_bool, Had. }
    destruct (IH w1 Had) as (w' & H' & Hlog).
    exists w'. split; [by rewrite (bind_Return _ _ _ _ _ H1)|].
    rewrite Hlog. cbn. by rewrite <- app_assoc.
Qed.

Lemma fetchMany_calls (records : list ref) (owner : ref) (resolver : pref) (w : World) :
  (∀ T, adapterImplements (adapters w T) HFindMany = true) →
  ∃ w', fetchMany records owner resolver w = (w', Return tt) ∧
        adapterLog w' =
          adapterLog w ++ map (findManyCall w owner resolver) (groupByType w records).
Proof.
  intros Had. unfold fetchMany. case_bool_decide as Hlen.
  - exists w. split; [done|].
    apply nil_length_inv in Hlen as ->. by rewrite app_nil_r.
  - unfold bind at 1. unfold gets at 1. by apply forEach_fetchManyOfType.
Qed.

(** [fetchMany] of no records changes nothing and returns [undefined]. *)
Lemma fetchMany_nil (owner : ref) (resolver : pref) (w : World) :
  fetchMany [] owner resolver w = (w, Return tt).
Proof. reflexivity. Qed.

Lemma modify_same_records (f : World → World) (w : World) :
  same_records w (f w) →
  ∃ w', modify f w = (w', Return tt) ∧ same_records w w'.
Proof. intros H. by exists (f w). Qed.

Lemma updateArray_same_records (array : aref) (f : RecordArray → RecordArray) (w : World) :
  ∃ w', updateArray array f w = (w', Return tt) ∧ same_records w w'.
Proof. apply modify_same_records. by repeat split. Qed.

Lemma registerWaitingRecordArray_same_records (record : ref) (array : aref) (w : World) :
  ∃ w', registerWaitingRecordArray record array w = (w', Return tt) ∧ same_records w w'.
Proof. apply modify_same_records. by repeat split. Qed.

Lemma once_same_records (t : Task) (w : World) :
  ∃ w', once t w = (w', Return tt) ∧ same_records w w'.
Proof. apply modify_same_records. by repeat split. Qed.

(** What [findMany] sends to the adapter. *)
Lemma findMany_calls
    (owner : ref) (records : list ref) (type : EntityType) (resolver : pref) (w : World) :
  (∀ T, adapterImplements (adapters w T) HFindMany = true) →
  let unloadedRecords := filter (λ r, isEmpty (getRecord w r)) records in
  ∃ w', findMany owner records type resolver w = (w', Return (length (arrays w))) ∧
        adapterLog w' =
          adapterLog w ++
          map (findManyCall w owner resolver) (groupByType w unloadedRecords).
Proof.
  intros Had unloaded. unfold findMany.
  unfold bind at 1. unfold gets at 1. fold unloaded.
  unfold bind at 1. unfold createManyArray, createArray.
  set (wa := set_arrays _ w).
  assert (Hsa : same_records w wa) by (by repeat split).
  destruct (forEach_same_records loadingData unloaded wa) as (wb & Hb & Hsb).
  { intros r w0. apply updateRecord_same_records. }
  rewrite (bind_Return _ _ _ _ _ Hb).
  destruct (updateArray_same_records (length (arrays w))
              (ra_set_loadingRecordsCount (length unloaded)) wb) as (wc & Hc & Hsc).
  rewrite (bind_Return _ _ _ _ _ Hc).
  assert (Hs : same_records w wc)
    by (eapply same_records_trans; [|exact Hsc];
        eapply same_records_trans; [exact Hsa|exact Hsb]).
  case_bool_decide as Hlen; simpl negb; cbv iota.
  - destruct (updateArray_same_records (length (arrays w)) (ra_set_isLoaded true) wc)
      as (wd & Hd & Hsd).
    destruct (once_same_records (T_didLoad (length (arrays w))) wd) as (we & He & Hse).
    exists we. split.
    + unfold bind at 1. by rewrite (bind_Return _ _ _ _ _ Hd), He.
    + apply nil_length_inv in Hlen. rewrite Hlen. cbn. rewrite app_nil_r.
      destruct Hs as (_ & _ & <-). destruct Hsd as (_ & _ & <-).
      by destruct Hse as (_ & _ & <-).
  - destruct (forEach_same_records
                (λ record, registerWaitingRecordArray record (length (arrays w)))
                unloaded wc) as (wd & Hd & Hsd).
    { intros r w0. apply registerWaitingRecordArray_same_records. }
    assert (Hs' : same_records w wd) by (by eapply same_records_trans).
    destruct Hs' as (Hrec & Hadp & Hlog).
    destruct (fetchMany_calls unloaded owner resolver wd) as (we & He & Hloge).
    { intros T. by rewrite Hadp. }
    exists we. split.
    + unfold bind at 1. by rewrite (bind_Return _ _ _ _ _ Hd), He.
    + rewrite Hloge, Hlog. f_equal.
      rewrite (groupByType_ext w wd) by (intros r; apply Hrec).
      apply findManyCall_ext. intros r. apply Hrec.
Qed.

(** C8 (amended).  [fetchMany] with an empty list is a no-op: it returns
    [undefined], the adapter is not called, and the resolver it was given
    is not touched.  In [findMany] only the records that are empty are
    passed on: the adapter receives one [findMany] call per type that has an
    empty record, carrying the ids of exactly the empty records of that
    type, in input order. *)
Theorem findMany_fetches_only_empty
    (owner : ref) (records : list ref) (type : EntityType) (resolver : pref) (w : World) :
  (∀ T, adapterImplements (adapters w T) HFindMany = true) →
  fetchMany [] owner resolver w = (w, Return tt) ∧
  ∃ w' manyArray groups,
    findMany owner records type resolver w = (w', Return manyArray) ∧
    adapterLog w' = adapterLog w ++ map (findManyCall w owner resolver) groups ∧
    NoDup groups.*1 ∧
    (∀ T rs, (T, rs) ∈ groups →
       rs ≠ [] ∧
       rs = filter (λ r, isEmpty (getRecord w r) = true ∧ rec_type (getRecord w r) = T)
                   records) ∧
    (∀ r, r ∈ records → isEmpty (getRecord w r) = true →
          rec_type (getRecord w r) ∈ groups.*1).
Proof.
  intros Had. split; [apply fetchMany_nil|].
  destruct (findMany_calls owner records type resolver w Had) as (w' & Hfind & Hlog).
  set (unloaded := filter (λ r, isEmpty (getRecord w r)) records) in *.
  exists w', (length (arrays w)), (groupByType w unloaded).
  destruct (groups_partition (λ r, rec_type (getRecord w r)) unloaded)
    as (Hnd & Hgroups & Hkeys).
  split; [done|]. split; [done|]. split; [done|]. split.
  - intros T rs Hin. destruct (Hgroups T rs Hin) as (Hne & Hrs).
    split; [done|]. rewrite Hrs. unfold unloaded.
    rewrite list_filter_filter. apply list_filter_iff.
    intros r. rewrite Is_true_true. tauto.
  - intros r Hr Hempty. apply Hkeys. unfold unloaded.
    apply list_elem_of_filter. split; [by apply Is_true_true|done].
Qed.

Lemma findMany_fetches_only_empty_witness :
  let w := (recordForId Person (JStr "2")
              (setupData 0 {| payload_id := JStr "1" |}
                 (recordForId Person (JStr "1") freshStore).1).1).1 in
  fetchMany [] 0 0 w = (w, Return tt) ∧
  ∃ w' manyArray,
    findMany 0 [0; 1] Person 0 w = (w', Return manyArray) ∧
    adapterLog w' = [A_findMany Person [JStr "2"] 0 0].
Proof.
  intros w.
  destruct (findMany_fetches_only_empty 0 [0; 1] Person 0 w) as (Hnil & Hmany).
  - intros T. reflexivity.
  - split; [done|].
    destruct Hmany as (w' & manyArray & groups & Hfind & Hlog & _).
    exists w', manyArray. split; [done|].
    assert (Hw : (findMany 0 [0; 1] Person 0 w).1 = w') by (by rewrite Hfind).
    rewrite <- Hw. vm_compute. reflexivity.
Defined.

(** C8 as stated fails in one part: [fetchMany] with an empty list returns
    no future and resolves nothing.  A resolver made by [defer] and passed
    in is still pending afterwards. *)
Lemma fetchMany_nil_resolves_nothing :
  let deferred := defer freshStore in
  let fetched := fetchMany [] 0 0 deferred.1 in
  deferred.2 = Return 0 ∧
  fetched.2 = Return tt ∧
  fetched.1 = deferred.1 ∧
  promises fetched.1 !! 0 = Some Pending ∧
  adapterLog fetched.1 = [].
Proof. repeat split. Qed.

(** * Saving *)

Lemma scheduleSave_eq (record : ref) (resolver : pref) (w : World) :
  ∃ w', scheduleSave record resolver w = (w', Return tt) ∧
        _pendingSave w' = _pendingSave w ++ [(record, resolver)] ∧
        runOnce w' = (if decide (T_flushPendingSave ∈ runOnce w) then runOnce w
                      else runOnce w ++ [T_flushPendingSave]) ∧
        adapters w' = adapters w ∧ adapterLog w' = adapterLog w ∧
        promises w' = promises w ∧
        length (heap w') = length (heap w).
Proof.
  eexists. split; [reflexivity|]. cbn. by rewrite length_insert.
Qed.

Lemma queue_grows_refl (w : World) : queue_grows w w.
Proof. repeat split. exists []. by rewrite app_nil_r. Qed.

Lemma queue_grows_trans (w1 w2 w3 : World) :
  queue_grows w1 w2 → queue_grows w2 w3 → queue_grows w1 w3.
Proof.
  intros (Ha1 & Hl1 & e1 & Hq1) (Ha2 & Hl2 & e2 & Hq2).
  split; [congruence|]. split; [congruence|].
  exists (e1 ++ e2). by rewrite Hq2, Hq1, app_assoc.
Qed.

Lemma forEach_cons {A} (f : A → M unit) (x : A) (l : list A) :
  forEach (x :: l) f = (f x ;; forEach l f).
Proof. reflexivity. Qed.

Lemma flushLoop_S (n i : nat) :
  flushLoop (S n) i =
    (let! tuple := gets (λ w, _pendingSave w !! i) in
     match tuple with
     | Some (record, resolver) => flushOne record resolver
     | None => ret tt
     end ;;
     flushLoop n (S i)).
Proof. reflexivity. Qed.

Lemma forEach_scheduleSave (l : list (ref * pref)) (w : World) :
  ∃ w', forEach l (λ '(r, p), scheduleSave r p) w = (w', Return tt) ∧ queue_grows w w'.
Proof.
  revert w. induction l as [|[r p] l IH]; intros w.
  - exists w. split; [done|apply queue_grows_refl].
  - rewrite forEach_cons. cbv beta iota.
    destruct (scheduleSave_eq r p w) as (w1 & H1 & Hq & _ & Ha & Hl & _).
    destruct (IH w1) as (w2 & H2 & Hg).
    exists w2. split; [by rewrite (bind_Return _ _ _ _ _ H1)|].
    eapply queue_grows_trans; [|exact Hg].
    split; [done|]. split; [done|]. by eexists.
Qed.

(** One queued tuple is handed to the adapter in exactly one commit call,
    which carries its record and its resolver. *)
Lemma flushOne_eq (record : ref) (resolver : pref) (w : World) :
  (∀ T, is_Some (adapters w T)) →
  ∃ w' call,
    flushOne record resolver w = (w', Return tt) ∧
    commitOf call = Some (record, resolver) ∧
    adapters w' = adapters w ∧
    adapterLog w' = adapterLog w ++ [call] ∧
    ∃ extra, _pendingSave w' = _pendingSave w ++ extra.
Proof.
  intros Had. unfold flushOne, adapterForType.
  unfold bind at 1. unfold gets at 1.
  unfold bind at 1. unfold gets at 1.
  destruct (Had (rec_type (getRecord w record))) as [a Ha]. rewrite Ha.
  unfold bind at 1. unfold gets at 1.
  set (call := if isNew (getRecord w record) then _ else _).
  unfold bind at 1. unfold callAdapter, modify.
  set (w1 := set_adapterLog _ w).
  destruct (forEach_scheduleSave (onCommit a call) w1) as (w2 & H2 & Ha2 & Hl2 & e & Hq2).
  exists w2, call. split; [done|].
  split; [subst call; by repeat case_match|].
  split; [done|]. split; [done|]. by exists e.
Qed.

Lemma take_drop_app_le {A} (l extra : list A) (i n : nat) :
  i + n ≤ length l → take n (drop i (l ++ extra)) = take n (drop i l).
Proof.
  intros Hle. rewrite drop_app, take_app_le; [done|].
  rewrite length_drop. lia.
Qed.

Lemma flushLoop_eq (n i : nat) (w : World) :
  (∀ T, is_Some (adapters w T)) →
  i + n ≤ length (_pendingSave w) →
  ∃ w' calls,
    flushLoop n i w = (w', Return tt) ∧
    commitOf <$> calls = Some <$> take n (drop i (_pendingSave w)) ∧
    adapters w' = adapters w ∧
    adapterLog w' = adapterLog w ++ calls ∧
    ∃ extra, _pendingSave w' = _pendingSave w ++ extra.
Proof.
  revert i w. induction n as [|n IH]; intros i w Had Hle.
  - exists w, []. rewrite app_nil_r. repeat split; try done.
    exists []. by rewrite app_nil_r.
  - rewrite flushLoop_S. unfold bind at 1. unfold gets at 1.
    destruct (lookup_lt_is_Some_2 (_pendingSave w) i) as [[r p] Hi]; [lia|].
    rewrite Hi.
    destruct (flushOne_eq r p w Had) as (w1 & call & H1 & Hc & Ha1 & Hl1 & e1 & Hq1).
    rewrite (bind_Return _ _ _ _ _ H1).
    destruct (IH (S i) w1) as (w2 & calls & H2 & Hcs & Ha2 & Hl2 & e2 & Hq2).
    { intros T. by rewrite Ha1. }
    { rewrite Hq1, length_app. lia. }
    exists w2, (call :: calls). split; [done|]. split.
    { rewrite (drop_S _ _ _ Hi). cbn. rewrite Hc, Hcs, Hq1.
      by rewrite take_drop_app_le by lia. }
    split; [congruence|].
    split; [by rewrite Hl2, Hl1, <- app_assoc|].
    exists (e1 ++ e2). by rewrite Hq2, Hq1, app_assoc.
Qed.

(** A flush hands every tuple that is in the queue when it starts to the
    adapter exactly once, in queue order, and leaves the queue empty. *)
Lemma flushPendingSave_eq (w : World) :
  (∀ T, is_Some (adapters w T)) →
  ∃ w' calls,
    flushPendingSave w = (w', Return tt) ∧
    commitOf <$> calls = Some <$> _pendingSave w ∧
    adapterLog w' = adapterLog w ++ calls ∧
    _pendingSave w' = [].
Proof.
  intros Had. unfold flushPendingSave.
  unfold bind at 1. unfold gets at 1.
  destruct (flushLoop_eq (length (_pendingSave w)) 0 w Had)
    as (w1 & calls & H1 & Hcs & _ & Hl & _); [lia|].
  rewrite (bind_Return _ _ _ _ _ H1).
  eexists _, calls. split; [reflexivity|].
  rewrite drop_0, take_ge in Hcs by lia. by repeat split.
Qed.

(** C4 (amended).  [scheduleSave] is not idempotent: every call appends
    one (record, resolver) tuple to the pending-save queue, so two calls
    for the same record before the flush leave the record queued twice,
    and the flush hands it to the adapter twice, once with each resolver.
    Only the scheduling of the flush is coalesced: the two calls put one
    [flushPendingSave] on the run loop. *)
Theorem scheduleSave_queues_every_call
    (w : World) (record : ref) (p1 p2 : pref) :
  (∀ T, is_Some (adapters w T)) →
  ∃ w1 w2 w3 calls c1 c2,
    scheduleSave record p1 w = (w1, Return tt) ∧
    scheduleSave record p2 w1 = (w2, Return tt) ∧
    _pendingSave w2 = _pendingSave w ++ [(record, p1); (record, p2)] ∧
    runOnce w2 = (if decide (T_flushPendingSave ∈ runOnce w) then runOnce w
                  else runOnce w ++ [T_flushPendingSave]) ∧
    flushPendingSave w2 = (w3, Return tt) ∧
    adapterLog w3 = adapterLog w ++ calls ++ [c1; c2] ∧
    commitOf <$> calls = Some <$> _pendingSave w ∧
    commitOf c1 = Some (record, p1) ∧
    commitOf c2 = Some (record, p2) ∧
    _pendingSave w3 = [].
Proof.
  intros Had.
  destruct (scheduleSave_eq record p1 w) as (w1 & H1 & Hq1 & Hr1 & Ha1 & Hl1 & _).
  destruct (scheduleSave_eq record p2 w1) as (w2 & H2 & Hq2 & Hr2 & Ha2 & Hl2 & _).
  destruct (flushPendingSave_eq w2) as (w3 & all & H3 & Hcs & Hl3 & Hq3).
  { intros T. by rewrite Ha2, Ha1. }
  rewrite Hq2, Hq1, <- app_assoc in Hcs. cbn in Hcs.
  rewrite fmap_app in Hcs.
  apply fmap_app_inv in Hcs as (calls & last & Hcalls & Hlast & ->).
  destruct last as [|c1 [|c2 [|? ?]]]; try discriminate.
  injection Hlast as Hc1 Hc2.
  exists w1, w2, w3, calls, c1, c2.
  split; [done|]. split; [done|].
  split; [by rewrite Hq2, Hq1, <- app_assoc|].
  split.
  { rewrite Hr2, Hr1. clear.
    destruct (decide (T_flushPendingSave ∈ runOnce w)) as [Hin|Hnin].
    - by rewrite decide_True.
    - rewrite decide_True; [done|].
      apply elem_of_app. right. by apply list_elem_of_singleton. }
  split; [done|].
  split; [by rewrite Hl3, Hl2, Hl1|].
  by repeat split.
Qed.

Lemma scheduleSave_queues_every_call_witness :
  ∃ w2 w3,
    (scheduleSave 0 1 (scheduleSave 0 0 oneDirtyRecord).1) = (w2, Return tt) ∧
    _pendingSave w2 = [(0, 0); (0, 1)] ∧
    runOnce w2 = [T_flushPendingSave] ∧
    flushPendingSave w2 = (w3, Return tt) ∧
    adapterLog w3 = [A_updateRecord Person 0 0; A_updateRecord Person 0 1].
Proof.
  destruct (scheduleSave_queues_every_call oneDirtyRecord 0 0 1)
    as (w1 & w2 & w3 & calls & c1 & c2 & H1 & H2 & Hq & Hr & H3 & Hlog & _).
  - intros T. by eexists.
  - exists w2, w3. rewrite H1. cbn [fst].
    split; [done|]. split; [done|]. split; [done|]. split; [done|].
    assert (Hw2 : w2 = (scheduleSave 0 1 (scheduleSave 0 0 oneDirtyRecord).1).1)
      by (rewrite H1; cbn [fst]; by rewrite H2).
    assert (Hw3 : w3 = (flushPendingSave w2).1) by (by rewrite H3).
    rewrite Hw3, Hw2. vm_compute. reflexivity.
Defined.

(** C4 as stated fails: two [scheduleSave] calls for record 0 before the
    flush queue it twice, and the tick's flush sends it to the adapter
    twice. *)
Lemma scheduleSave_twice_dispatches_twice :
  let once_ := scheduleSave 0 0 oneDirtyRecord in
  let twice := scheduleSave 0 1 once_.1 in
  let flushed := tick twice.1 in
  _pendingSave twice.1 = [(0, 0); (0, 1)] ∧
  runOnce twice.1 = [T_flushPendingSave] ∧
  flushed.2 = Return tt ∧
  adapterLog flushed.1 = [A_updateRecord Person 0 0; A_updateRecord Person 0 1].
Proof. vm_compute. repeat split. Qed.

(** C3, where the code departs from it.  Record 0 is saved; while the flush
    hands it to the adapter, the adapter's [createRecord] hook saves
    record 1.  That tuple is pushed onto the array the flush is iterating,
    is not visited, and is thrown away when the flush replaces the queue:
    after this turn of the run loop and the next one the adapter has seen
    record 0 only, the queue is empty, record 1 is marked in flight and its
    promise is still pending. *)
Theorem flush_drops_save_scheduled_during_flush :
  let scheduled := scheduleSave 0 0 twoNewRecords in
  let turn1 := tick scheduled.1 in
  let turn2 := tick turn1.1 in
  _pendingSave scheduled.1 = [(0, 0)] ∧
  turn1.2 = Return tt ∧
  adapterLog turn1.1 = [A_createRecord Person 0 0] ∧
  _pendingSave turn1.1 = [] ∧
  runOnce turn1.1 = [T_flushPendingSave] ∧
  turn2.2 = Return tt ∧
  adapterLog turn2.1 = [A_createRecord Person 0 0] ∧
  _pendingSave turn2.1 = [] ∧
  runOnce turn2.1 = [] ∧
  rec_state (getRecord turn2.1 1) = InFlightCreate ∧
  promises turn2.1 !! 1 = Some Pending.
Proof. vm_compute. repeat split. Qed.

(** * Unloading a record *)

Lemma indexOf_first (l : list ref) (x : ref) :
  x ∈ l →
  ∃ l1 l2, l = l1 ++ (x :: l2) ∧ (x ∉ l1) ∧ indexOf l x = Some (length l1).
Proof.
  induction l as [|y l IH]; intros Hin.
  - by apply not_elem_of_nil in Hin.
  - cbn. destruct (decide (y = x)) as [->|Hne].
    + exists [], l. split; [done|]. split; [apply not_elem_of_nil|done].
    + apply elem_of_cons in Hin as [->|Hin]; [done|].
      destruct (IH Hin) as (l1 & l2 & -> & Hnotin & ->).
      exists (y :: l1), l2. split; [done|]. split; [|done].
      intros [?|?]%elem_of_cons; congruence.
Qed.

Lemma indexOf_absent (l : list ref) (x : ref) : x ∉ l → indexOf l x = None.
Proof.
  induction l as [|y l IH]; intros Hnotin; [done|]. cbn.
  rewrite decide_False by (intros ->; apply Hnotin; apply list_elem_of_here).
  rewrite IH; [done|]. intros Hin. apply Hnotin. by apply list_elem_of_further.
Qed.

(** Everything [dematerializeRecord] does to the heap, the type maps and
    the adapter. *)
Lemma dematerializeRecord_effect (w : World) (record : ref) :
  let type := rec_type (getRecord w record) in
  let id := rec_id (getRecord w record) in
  ∃ w', dematerializeRecord record w = (w', Return tt) ∧
        heap w' = heap w ∧ adapterLog w' = adapterLog w ∧
        promises w' = promises w ∧ _pendingSave w' = _pendingSave w ∧
        idToRecordOf w' type =
          (if truthy id then delete (toString id) (idToRecordOf w type)
           else idToRecordOf w type) ∧
        recordsOf w' type =
          splice1 (indexOf (recordsOf w type) record) (recordsOf w type) ∧
        ∀ type', type' ≠ type → typeMaps w' !! type' = typeMaps w !! type'.
Proof.
  intros type id. subst type id.
  unfold dematerializeRecord, typeMapFor, updateRecordArrays, updateTypeMap, getRecord.
  munfold. cbn.
  destruct (typeMaps w !! rec_type (heap w !!! record)) as [typeMap|] eqn:Htm; cbn;
    destruct (truthy (rec_id (heap w !!! record))) eqn:Hid; cbn;
    (eexists; split; [reflexivity|]); cbn;
    repeat (split; [first [done | view_simpl; rewrite ?Htm; done]|]);
    intros type' Hne; by rewrite ?lookup_alter_ne, ?lookup_insert_ne.
Qed.

(** X1.  Unloading a record that is in its type's record list takes its
    first occurrence out of the list and keeps the other records in order;
    it frees the slot of the record's id when the id is truthy, leaves
    every other slot and every other type's map alone, and neither touches
    the heap nor calls the adapter. *)
Theorem dematerializeRecord_removes_record (w : World) (record : ref) :
  let type := rec_type (getRecord w record) in
  let id := rec_id (getRecord w record) in
  record ∈ recordsOf w type →
  ∃ w' before after,
    dematerializeRecord record w = (w', Return tt) ∧
    recordsOf w type = before ++ (record :: after) ∧
    (record ∉ before) ∧
    recordsOf w' type = before ++ after ∧
    (truthy id = true → idToRecordOf w' type !! toString id = None) ∧
    (∀ k, k ≠ toString id → idToRecordOf w' type !! k = idToRecordOf w type !! k) ∧
    (∀ type', type' ≠ type → typeMaps w' !! type' = typeMaps w !! type') ∧
    heap w' = heap w ∧ adapterLog w' = adapterLog w.
Proof.
  intros type id Hin.
  destruct (dematerializeRecord_effect w record)
    as (w' & Hde & Hheap & Hlog & _ & _ & Hidx & Hrecs & Hother).
  fold type id in Hidx, Hrecs, Hother.
  destruct (indexOf_first _ _ Hin) as (before & after & Hsplit & Hnotin & Hloc).
  exists w', before, after.
  split; [done|]. split; [done|]. split; [done|].
  split.
  { rewrite Hrecs, Hloc. cbn. rewrite Hsplit at 1. apply delete_middle. }
  split.
  { intros Hid. rewrite Hidx, Hid. apply lookup_delete_eq. }
  split.
  { intros k Hk. rewrite Hidx. destruct (truthy id); [|done].
    by apply lookup_delete_ne. }
  done.
Qed.

Lemma dematerializeRecord_removes_record_witness :
  let w := (getById Person (JStr "2") (getById Person (JStr "1") freshStore).1).1 in
  ∃ w', dematerializeRecord 0 w = (w', Return tt) ∧
        recordsOf w' Person = [1] ∧
        idToRecordOf w' Person !! "1" = None ∧
        idToRecordOf w' Person !! "2" = Some 1.
Proof.
  intros w.
  destruct (dematerializeRecord_removes_record w 0)
    as (w' & before & after & Hde & Hsplit & Hnotin & Hrecs & Hfree & Hkeep & _).
  - vm_compute. apply list_elem_of_here.
  - exists w'. split; [done|].
    assert (Hbefore : before = [] ∧ after = [1]).
    { change (recordsOf w (rec_type (getRecord w 0))) with [0; 1] in Hsplit.
      destruct before as [|b before].
      - by injection Hsplit as <-.
      - injection Hsplit as <- _. exfalso. apply Hnotin. apply list_elem_of_here. }
    destruct Hbefore as [-> ->].
    split; [exact Hrecs|].
    split; [by apply Hfree|].
    transitivity (idToRecordOf w Person !! "2"); [|reflexivity].
    apply (Hkeep "2"). vm_compute. discriminate.
Defined.

(** X2.  Unloading a record that is not in its type's record list removes
    the last record of that list instead: [indexOf] answers -1 and
    [splice(-1, 1)] counts from the end.  In [idToRecord] only the slot of
    the unloaded record's own id is deleted (when that id is truthy),
    whichever record it holds.  So the record that left the list keeps
    every slot it has, except when it is filed under the id of the unloaded
    record: then it loses that slot too. *)
Theorem dematerializeRecord_of_unlisted_record_drops_last
    (w : World) (record last : ref) (others : list ref) :
  let type := rec_type (getRecord w record) in
  let id := rec_id (getRecord w record) in
  recordsOf w type = others ++ [last] →
  record ∉ others ++ [last] →
  ∃ w',
    dematerializeRecord record w = (w', Return tt) ∧
    recordsOf w' type = others ∧
    idToRecordOf w' type =
      (if truthy id then delete (toString id) (idToRecordOf w type)
       else idToRecordOf w type) ∧
    (∀ k, idToRecordOf w type !! k = Some last →
          truthy id = false ∨ k ≠ toString id →
          idToRecordOf w' type !! k = Some last) ∧
    (truthy id = true → idToRecordOf w' type !! toString id = None).
Proof.
  intros type id Hrecs Hnotin.
  destruct (dematerializeRecord_effect w record)
    as (w' & Hde & _ & _ & _ & _ & Hidx & Hrecs' & _).
  fold type id in Hidx, Hrecs'.
  exists w'. split; [done|]. split; [|split; [done|split]].
  - rewrite Hrecs', Hrecs, (indexOf_absent _ _ Hnotin). cbn.
    rewrite length_app. cbn. rewrite Nat.add_sub. apply take_app_length.
  - intros k Hk Hother. rewrite Hidx. destruct (truthy id); [|done].
    destruct Hother as [|Hne]; [done|]. by rewrite lookup_delete_ne.
  - intros Hid. rewrite Hidx, Hid. apply lookup_delete_eq.
Qed.

Lemma dematerializeRecord_of_unlisted_record_drops_last_witness :
  let two := (getById Person (JStr "2") (getById Person (JStr "1") freshStore).1).1 in
  let w := (dematerializeRecord 0 two).1 in
  let again := (getById Person (JStr "5")
                  (dematerializeRecord 0 (getById Person (JStr "5") freshStore).1).1).1 in
  (recordsOf w Person = [1] ∧
   ∃ w', dematerializeRecord 0 w = (w', Return tt) ∧
         recordsOf w' Person = [] ∧
         idToRecordOf w' Person !! "2" = Some 1) ∧
  (recordsOf again Person = [1] ∧ idToRecordOf again Person !! "5" = Some 1 ∧
   ∃ w', dematerializeRecord 0 again = (w', Return tt) ∧
         recordsOf w' Person = [] ∧
         idToRecordOf w' Person !! "5" = None).
Proof.
  intros two w again. split.
  - split; [reflexivity|].
    destruct (dematerializeRecord_of_unlisted_record_drops_last w 0 1 [])
      as (w' & Hde & Hrecs & _ & Hkeep & _).
    + reflexivity.
    + vm_compute. intros [?|?%not_elem_of_nil]%elem_of_cons; [discriminate|done].
    + exists w'. split; [done|]. split; [exact Hrecs|].
      apply (Hkeep "2"); [reflexivity|]. right. vm_compute. discriminate.
  - split; [reflexivity|]. split; [reflexivity|].
    destruct (dematerializeRecord_of_unlisted_record_drops_last again 0 1 [])
      as (w' & Hde & Hrecs & _ & _ & Hgone).
    + reflexivity.
    + vm_compute. intros [?|?%not_elem_of_nil]%elem_of_cons; [discriminate|done].
    + exists w'. split; [done|]. split; [exact Hrecs|].
      apply Hgone. reflexivity.
Defined.




(** * Asking whether a record is loaded *)

Lemma ensureTypeMap_same (w : World) (type : EntityType) :
  heap (ensureTypeMap type w) = heap w ∧
  adapters (ensureTypeMap type w) = adapters w ∧
  adapterLog (ensureTypeMap type w) = adapterLog w ∧
  promises (ensureTypeMap type w) = promises w.
Proof. unfold ensureTypeMap. by destruct (typeMaps w !! type). Qed.

Lemma ensureTypeMap_views (w : World) (type type' : EntityType) :
  idToRecordOf (ensureTypeMap type w) type' = idToRecordOf w type' ∧
  recordsOf (ensureTypeMap type w) type' = recordsOf w type'.
Proof.
  by rewrite !idToRecordOf_typeMapOf, !recordsOf_typeMapOf, ensureTypeMap_typeMapOf.
Qed.




(** * Creating a record *)

Lemma createRecord_eq
    (gen : Adapter → option (World → jsval)) (w : World) (type : EntityType)
    (properties : option Payload) :
  let id := createdId gen w type properties in
  truthy id = false ∨
    (idToRecordOf w type !! toString id = None ∧ inheritedKey (toString id) = false) →
  ∃ w1,
    createRecord gen type properties w = (w1, Return (length (heap w))) ∧
    getRecord w1 (length (heap w)) =
      {| rec_id := id; rec_type := type; rec_state := New |} ∧
    length (heap w1) = S (length (heap w)) ∧
    (∀ r, r < length (heap w) → getRecord w1 r = getRecord w r) ∧
    idToRecordOf w1 type =
      (if truthy id then <[toString id := length (heap w)]> (idToRecordOf w type)
       else idToRecordOf w type) ∧
    recordsOf w1 type = recordsOf w type ++ [length (heap w)] ∧
    (∀ type', type' ≠ type → typeMaps w1 !! type' = typeMaps w !! type') ∧
    same_collaborators w w1.
Proof.
  intros id Hfree.
  assert (Hgen : ∃ g, (if looseEqNull
                            match properties with
                            | Some p => payload_id p
                            | None => JUndefined
                            end
                       then _generateId gen type
                       else ret match properties with
                                | Some p => payload_id p
                                | None => JUndefined
                                end) w = (w, Return g) ∧ coerceId g = id).
  { subst id. unfold createdId, _generateId, adapterForType. munfold.
    destruct (looseEqNull _); [|by eexists].
    destruct (adapters w type) as [a|]; [|by eexists].
    destruct (gen a); by eexists. }
  destruct Hgen as (g & Hg & Hid).
  unfold createRecord. rewrite (bind_Return _ _ _ _ _ Hg), Hid.
  destruct (buildRecord_fresh w type id Hfree) as (w' & Hbuild & Hb).
  rewrite (bind_Return _ _ _ _ _ Hbuild).
  pose proof (built_getRecord _ _ _ _ Hb) as Hnew.
  destruct Hb as [Hheap Hidx Hrecs _ Hother Hsame].
  assert (Hlt : length (heap w) < length (heap w'))
    by (rewrite Hheap, length_app; cbn; lia).
  unfold loadedData, setProperties, updateRecord. munfold.
  eexists. split; [reflexivity|]. cbn.
  split.
  { unfold getRecord in *. cbn.
    rewrite list_lookup_total_insert_eq by (by rewrite length_insert).
    rewrite list_lookup_total_insert_eq by done. by rewrite Hnew. }
  split; [rewrite !length_insert, Hheap, length_app; cbn; lia|].
  split.
  { intros r Hr. unfold getRecord. cbn.
    rewrite !list_lookup_total_insert_ne by lia.
    by rewrite Hheap, lookup_total_app_l. }
  done.
Qed.



(** X6.  [createRecord] with an id whose slot is taken fails with the
    assertion 'The id ... has already been used with another record' and
    creates nothing: the store is exactly as before. *)
Theorem createRecord_refuses_used_id
    (gen : Adapter → option (World → jsval)) (w : World) (type : EntityType)
    (v : jsval) (r : ref) :
  looseEqNull v = false →
  toString v ≠ "" →
  idToRecordOf w type !! toString v = Some r →
  createRecord gen type (Some {| payload_id := v |}) w =
    (w, Throw (AssertionFailed IdAlreadyUsed)).
Proof.
  intros Hv Hne Htaken. unfold createRecord. cbn. rewrite Hv.
  unfold bind at 1. unfold ret at 1.
  assert (coerceId v = JStr (toString v)) as -> by (unfold coerceId; by rewrite Hv).
  apply bind_Throw. eapply buildRecord_taken; [|exact Htaken].
  by apply truthy_coerceId_string.
Qed.

Lemma createRecord_refuses_used_id_witness :
  let w := (getById Person (JStr "5") freshStore).1 in
  createRecord noIdHook Person (Some {| payload_id := JNum 5 |}) w =
    (w, Throw (AssertionFailed IdAlreadyUsed)).
Proof.
  intros w. apply (createRecord_refuses_used_id noIdHook w Person (JNum 5) 0).
  - reflexivity.
  - vm_compute. discriminate.
  - reflexivity.
Defined.

(** X7.  [createRecord] without an id, for a type whose adapter has no
    [generateIdForRecord] hook (or that has no adapter), creates a new
    record with a [null] id that is in the type's record list but not in
    [idToRecord]: the index is unchanged, so every such call creates
    another record and none of them can be found by id. *)
Theorem createRecord_without_id
    (gen : Adapter → option (World → jsval)) (w : World) (type : EntityType)
    (properties : option Payload) :
  looseEqNull (match properties with Some p => payload_id p | None => JUndefined end)
    = true →
  (∀ a, adapters w type = Some a → gen a = None) →
  ∃ w1 w2,
    createRecord gen type properties w = (w1, Return (length (heap w))) ∧
    createRecord gen type properties w1 = (w2, Return (S (length (heap w)))) ∧
    getRecord w2 (length (heap w)) =
      {| rec_id := JNull; rec_type := type; rec_state := New |} ∧
    getRecord w2 (S (length (heap w))) =
      {| rec_id := JNull; rec_type := type; rec_state := New |} ∧
    recordsOf w2 type = recordsOf w type ++ [length (heap w); S (length (heap w))] ∧
    idToRecordOf w2 type = idToRecordOf w type.
Proof.
  intros Hnone Hhook.
  assert (Hid : ∀ w', adapters w' = adapters w →
                      createdId gen w' type properties = JNull).
  { intros w' Hadp. unfold createdId. rewrite Hnone, Hadp.
    destruct (adapters w type) as [a|] eqn:Ha; [|done]. by rewrite (Hhook a). }
  destruct (createRecord_eq gen w type properties)
    as (w1 & H1 & Hnew1 & Hlen1 & _ & Hidx1 & Hrecs1 & _ & Hsame1).
  { left. by rewrite Hid. }
  rewrite (Hid w eq_refl) in Hnew1, Hidx1. cbn in Hidx1.
  assert (Hadp1 : adapters w1 = adapters w) by (by destruct Hsame1 as (_&_&_&_&_&?&_)).
  destruct (createRecord_eq gen w1 type properties)
    as (w2 & H2 & Hnew2 & _ & Hold2 & Hidx2 & Hrecs2 & _ & _).
  { left. by rewrite Hid. }
  rewrite (Hid w1 Hadp1) in Hnew2, Hidx2. cbn in Hidx2.
  rewrite Hlen1 in H2, Hnew2, Hrecs2.
  exists w1, w2. split; [done|]. split; [done|].
  split; [rewrite Hold2 by lia; done|]. split; [done|].
  split; [by rewrite Hrecs2, Hrecs1, <- app_assoc|].
  by rewrite Hidx2, Hidx1.
Qed.

Lemma createRecord_without_id_witness :
  ∃ w1 w2,
    createRecord noIdHook Person None freshStore = (w1, Return 0) ∧
    createRecord noIdHook Person None w1 = (w2, Return 1) ∧
    recordsOf w2 Person = [0; 1] ∧
    idToRecordOf w2 Person = ∅.
Proof.
  destruct (createRecord_without_id noIdHook freshStore Person None)
    as (w1 & w2 & H1 & H2 & _ & _ & Hrecs & Hidx).
  - reflexivity.
  - reflexivity.
  - by exists w1, w2.
Defined.

(** X8.  An id made by the adapter's [generateIdForRecord] hook is treated
    exactly as an id given in the properties: when no id is given and the
    hook answers a value other than [null] and [undefined], [createRecord]
    does what it does when called with that value as the id. *)
Theorem createRecord_generated_id_as_given
    (gen : Adapter → option (World → jsval)) (w : World) (type : EntityType)
    (properties : option Payload) (a : Adapter) (hook : World → jsval) :
  looseEqNull (match properties with Some p => payload_id p | None => JUndefined end)
    = true →
  adapters w type = Some a → gen a = Some hook →
  looseEqNull (hook w) = false →
  createRecord gen type properties w =
    createRecord gen type (Some {| payload_id := hook w |}) w.
Proof.
  intros Hnone Ha Hgen Hhook. unfold createRecord. cbn. rewrite Hnone, Hhook.
  unfold bind at 1. unfold _generateId, adapterForType. munfold.
  by rewrite Ha, Hgen.
Qed.

Lemma createRecord_generated_id_as_given_witness :
  createRecord countingIdHook Person None freshStore =
    createRecord countingIdHook Person (Some {| payload_id := JNum 100 |}) freshStore ∧
  idToRecordOf (createRecord countingIdHook Person None freshStore).1 Person !! "100"
    = Some 0.
Proof.
  split; [|reflexivity].
  apply (createRecord_generated_id_as_given countingIdHook freshStore Person None
           quietAdapter (λ w, JNum (Z.of_nat (100 + length (heap w))))); reflexivity.
Defined.

(** * Loading data *)

Lemma typeMaps_views (w w' : World) (type : EntityType) :
  typeMaps w' = typeMaps w →
  idToRecordOf w' type = idToRecordOf w type ∧ recordsOf w' type = recordsOf w type.
Proof.
  intros H. unfold idToRecordOf, recordsOf, knownRecords. by rewrite H.
Qed.

Lemma isEmpty_setupData (o : RecordObj) : isEmpty (with_state setupData_state o) = false.
Proof. destruct o as [i t []]; reflexivity. Qed.

(** [load] is a lookup by [recordForId] followed by changes to that one
    record. *)
Lemma inheritedKey_falsy_coerceId (v : jsval) :
  truthy (coerceId v) = false → inheritedKey (toString (coerceId v)) = false.
Proof.
  unfold coerceId. destruct (looseEqNull v); [done|].
  apply inheritedKey_falsy_string.
Qed.

Lemma load_effect (rdc : ref → M unit) (type : EntityType) (data : Payload) (w : World) :
  manager_only rdc →
  inheritedKey (toString (coerceId (payload_id data))) = false →
  ∃ wa w1 record,
    recordForId type (payload_id data) w = (wa, Return record) ∧
    load rdc type data w = (w1, Return record) ∧
    typeMaps w1 = typeMaps wa ∧
    length (heap w1) = length (heap wa) ∧
    adapterLog w1 = adapterLog wa ∧
    (record < length (heap wa) → isEmpty (getRecord w1 record) = false) ∧
    (∀ r, r ≠ record → getRecord w1 r = getRecord wa r).
Proof.
  intros Hrdc Hkey.
  assert (Hsame : recordForId type (coerceId (payload_id data)) =
                  recordForId type (payload_id data)).
  { unfold recordForId. by rewrite coerceId_idempotent. }
  assert (∃ wa record, recordForId type (payload_id data) w = (wa, Return record))
    as (wa & record & Hrec).
  { destruct (idToRecordOf w type !! toString (coerceId (payload_id data))) eqn:Hlook.
    - eexists _, _. by apply recordForId_hit.
    - destruct (recordForId_miss w type (payload_id data) Hlook Hkey) as (w' & H & _).
      by eexists _, _. }
  unfold load. cbv zeta. rewrite Hsame, (bind_Return _ _ _ _ _ Hrec).
  unfold setupData, updateRecord. unfold bind at 1. unfold modify at 1.
  set (wb := set_heap _ wa).
  destruct (Hrdc record wb) as (w1 & H1 & Hheap & Htm & Hlog).
  rewrite (bind_Return _ _ _ _ _ H1).
  exists wa, w1, record. split; [done|]. split; [done|].
  split; [done|].
  split; [rewrite Hheap; cbn; by rewrite length_insert|].
  split; [done|]. split.
  - intros Hlt. unfold getRecord. rewrite Hheap. cbn.
    rewrite list_lookup_total_insert_eq by done. apply isEmpty_setupData.
  - intros r Hr. unfold getRecord. rewrite Hheap. cbn.
    by rewrite list_lookup_total_insert_ne.
Qed.


Lemma manager_only_addToArraysOfType : manager_only addToArraysOfType.
Proof. intros r w. by eexists. Qed.


(** X10.  [push] of data without a usable id does not return the record it
    loaded.  When the data's id is [null], [undefined] or the empty string
    (and no record sits under that key), [load] fills a new record that is
    not indexed, and the closing [recordForId] then builds a second record:
    [push] returns that second, still empty record, and both are appended
    to the type's record list. *)
Theorem push_without_id_returns_another_record
    (rdc : ref → M unit) (des : EntityType → Payload → Payload)
    (type : EntityType) (data : Payload) (w : World) :
  let id := coerceId (payload_id (des type data)) in
  manager_only rdc →
  truthy id = false →
  idToRecordOf w type !! toString id = None →
  ∃ w1,
    push rdc des type data w = (w1, Return (S (length (heap w)))) ∧
    isEmpty (getRecord w1 (length (heap w))) = false ∧
    getRecord w1 (S (length (heap w))) =
      {| rec_id := id; rec_type := type; rec_state := Empty |} ∧
    recordsOf w1 type = recordsOf w type ++ [length (heap w); S (length (heap w))] ∧
    idToRecordOf w1 type = idToRecordOf w type.
Proof.
  intros id Hrdc Hfalsy Hfree.
  pose proof (inheritedKey_falsy_coerceId _ Hfalsy) as Hkey.
  destruct (load_effect rdc type (des type data) w Hrdc Hkey)
    as (wa & wl & record & Hrec & Hload & Htm & Hlen & _ & Hfull & _).
  destruct (recordForId_miss w type (payload_id (des type data)) Hfree Hkey)
    as (w' & Hmiss & Hb).
  rewrite Hmiss in Hrec. injection Hrec as <- <-.
  fold id in Hb. destruct Hb as [Hheap Hidx Hrecs _ _ _].
  rewrite Hfalsy in Hidx.
  assert (Hlen' : length (heap w') = S (length (heap w)))
    by (rewrite Hheap, length_app; cbn; lia).
  destruct (typeMaps_views w' wl type Htm) as (Hidxl & Hrecsl).
  destruct (recordForId_miss wl type (payload_id (des type data)))
    as (w1 & Hagain & Hb1); [by rewrite Hidxl, Hidx|done|].
  pose proof (built_getRecord _ _ _ _ Hb1) as Hnew.
  fold id in Hb1, Hnew. destruct Hb1 as [Hheap1 Hidx1 Hrecs1 _ _ _].
  rewrite Hfalsy in Hidx1. rewrite Hlen, Hlen' in Hagain, Hnew, Hrecs1.
  exists w1. split.
  { unfold push. cbv zeta. by rewrite (bind_Return _ _ _ _ _ Hload). }
  split.
  { replace (getRecord w1 (length (heap w))) with (getRecord wl (length (heap w))).
    - apply Hfull. lia.
    - unfold getRecord. rewrite Hheap1, lookup_total_app_l; [done|]. lia. }
  split; [done|].
  split; [by rewrite Hrecs1, Hrecsl, Hrecs, <- app_assoc|].
  by rewrite Hidx1, Hidxl, Hidx.
Qed.

Lemma push_without_id_returns_another_record_witness :
  ∃ w1,
    push addToArraysOfType (λ _ d, d) Person {| payload_id := JUndefined |} freshStore
      = (w1, Return 1) ∧
    rec_state (getRecord w1 0) = Saved ∧
    rec_state (getRecord w1 1) = Empty ∧
    recordsOf w1 Person = [0; 1].
Proof.
  destruct (push_without_id_returns_another_record addToArraysOfType (λ _ d, d)
              Person {| payload_id := JUndefined |} freshStore)
    as (w1 & Hpush & _ & Hnew & Hrecs & _).
  - apply manager_only_addToArraysOfType.
  - reflexivity.
  - reflexivity.
  - exists w1. split; [done|].
    assert (Hw : w1 = (push addToArraysOfType (λ _ d, d) Person
                         {| payload_id := JUndefined |} freshStore).1)
      by (by rewrite Hpush).
    rewrite Hw. repeat split; reflexivity.
Defined.

(** * Flushing with adapters that do not call back *)

Lemma flushCall_heap (w w' : World) (tuple : ref * pref) :
  heap w' = heap w → flushCall w' tuple = flushCall w tuple.
Proof. intros H. destruct tuple. unfold flushCall, getRecord. by rewrite H. Qed.

Lemma flushOne_quiet (record : ref) (resolver : pref) (w : World) :
  adapters_never_call_back w →
  flushOne record resolver w =
    (set_adapterLog (λ l, l ++ [flushCall w (record, resolver)]) w, Return tt).
Proof.
  intros Hq. unfold flushOne, adapterForType.
  unfold bind at 1. unfold gets at 1.
  unfold bind at 1. unfold gets at 1.
  destruct (Hq (rec_type (getRecord w record))) as (a & Ha & Hquiet). rewrite Ha.
  unfold bind at 1. unfold gets at 1.
  unfold bind at 1. unfold callAdapter, modify.
  rewrite Hquiet. unfold flushCall. cbn.
  destruct (isNew (getRecord w record)); [done|].
  by destruct (isDeleted (getRecord w record)).
Qed.

Lemma flushLoop_quiet (n i : nat) (w : World) :
  adapters_never_call_back w →
  i + n ≤ length (_pendingSave w) →
  ∃ w',
    flushLoop n i w = (w', Return tt) ∧
    heap w' = heap w ∧ typeMaps w' = typeMaps w ∧
    _pendingSave w' = _pendingSave w ∧ runOnce w' = runOnce w ∧
    adapters w' = adapters w ∧ promises w' = promises w ∧
    adapterLog w' =
      adapterLog w ++ map (flushCall w) (take n (drop i (_pendingSave w))).
Proof.
  revert i w. induction n as [|n IH]; intros i w Hq Hle.
  - exists w. rewrite take_0. cbn. by rewrite app_nil_r.
  - rewrite flushLoop_S. unfold bind at 1. unfold gets at 1.
    destruct (lookup_lt_is_Some_2 (_pendingSave w) i) as [[r p] Hi]; [lia|].
    rewrite Hi, (bind_Return _ _ _ _ _ (flushOne_quiet r p w Hq)).
    set (w1 := set_adapterLog _ w).
    destruct (IH (S i) w1) as (w' & H' & Hheap & Htm & Hpend & Hrun & Hadp & Hpr & Hlog);
      [done|cbn; lia|].
    exists w'. split; [done|].
    repeat (split; [done|]).
    rewrite Hlog. cbn. rewrite <- app_assoc. cbn.
    rewrite (drop_S _ _ _ Hi). cbn. do 2 f_equal.
Qed.

(** A flush with adapters that do not call back. *)
Lemma flushPendingSave_quiet (w : World) :
  adapters_never_call_back w →
  ∃ w',
    flushPendingSave w = (w', Return tt) ∧
    adapterLog w' = adapterLog w ++ map (flushCall w) (_pendingSave w) ∧
    _pendingSave w' = [] ∧
    heap w' = heap w ∧ typeMaps w' = typeMaps w ∧
    promises w' = promises w ∧ runOnce w' = runOnce w.
Proof.
  intros Hq. unfold flushPendingSave.
  unfold bind at 1. unfold gets at 1.
  destruct (flushLoop_quiet (length (_pendingSave w)) 0 w Hq)
    as (w1 & H1 & Hheap & Htm & Hpend & Hrun & _ & Hpr & Hlog); [lia|].
  rewrite (bind_Return _ _ _ _ _ H1).
  eexists. split; [reflexivity|]. cbn.
  rewrite drop_0, take_ge in Hlog by lia. done.
Qed.

(** X11.  With adapters that do not save from inside a commit hook, a flush
    sends exactly one call per queued tuple, in queue order:
    [createRecord] for a record that is new, [deleteRecord] for one that is
    deleted, [updateRecord] for any other.  It then empties the queue, and
    changes no record, no type map and no promise. *)
Theorem flushPendingSave_partitions_by_state (w : World) :
  adapters_never_call_back w →
  ∃ w',
    flushPendingSave w = (w', Return tt) ∧
    adapterLog w' = adapterLog w ++ map (flushCall w) (_pendingSave w) ∧
    _pendingSave w' = [] ∧
    heap w' = heap w ∧ typeMaps w' = typeMaps w ∧
    promises w' = promises w ∧ runOnce w' = runOnce w.
Proof. apply flushPendingSave_quiet. Qed.

Lemma quiet_freshStore_like (w : World) :
  adapters w = (λ _, Some quietAdapter) → adapters_never_call_back w.
Proof. intros H T. exists quietAdapter. by rewrite H. Qed.

Lemma flushPendingSave_partitions_by_state_witness :
  let w := (scheduleSave 0 1 (scheduleSave 0 0 oneDirtyRecord).1).1 in
  ∃ w', flushPendingSave w = (w', Return tt) ∧
        adapterLog w' = [A_updateRecord Person 0 0; A_updateRecord Person 0 1] ∧
        _pendingSave w' = [].
Proof.
  intros w.
  destruct (flushPendingSave_partitions_by_state w)
    as (w' & Hflush & Hlog & Hq & _).
  - by apply quiet_freshStore_like.
  - exists w'. split; [done|]. split; [exact Hlog|done].
Defined.

Lemma forEach_scheduleSave_queue (saves : list (ref * pref)) (w : World) :
  ∃ w1,
    forEach saves (λ '(r, p), scheduleSave r p) w = (w1, Return tt) ∧
    _pendingSave w1 = _pendingSave w ++ saves ∧
    (T_flushPendingSave ∈ runOnce w → runOnce w1 = runOnce w) ∧
    (saves ≠ [] → T_flushPendingSave ∉ runOnce w →
     runOnce w1 = runOnce w ++ [T_flushPendingSave]) ∧
    adapters w1 = adapters w ∧ adapterLog w1 = adapterLog w.
Proof.
  revert w. induction saves as [|[r p] saves IH]; intros w.
  - exists w. rewrite app_nil_r. by repeat split.
  - rewrite forEach_cons. cbv beta iota.
    destruct (scheduleSave_eq r p w) as (w0 & H0 & Hq0 & Hr0 & Ha0 & Hl0 & _).
    destruct (IH w0) as (w1 & H1 & Hq1 & Hin1 & _ & Ha1 & Hl1).
    exists w1. split; [by rewrite (bind_Return _ _ _ _ _ H0)|].
    split; [by rewrite Hq1, Hq0, <- app_assoc|].
    assert (Hin0 : T_flushPendingSave ∈ runOnce w0).
    { rewrite Hr0. case_decide; [done|].
      apply elem_of_app. right. by apply list_elem_of_singleton. }
    split.
    { intros Hin. rewrite (Hin1 Hin0), Hr0. by rewrite decide_True. }
    split.
    { intros _ Hnotin. rewrite (Hin1 Hin0), Hr0. by rewrite decide_False. }
    split; congruence.
Qed.

(** X12.  Saves are coalesced per turn of the run loop.  Starting from an
    empty queue with nothing scheduled, any number of [scheduleSave] calls
    (at least one) queues one tuple per call and schedules a single
    [flushPendingSave]; one turn of the run loop then hands every tuple to
    the adapter, in the order of the calls, and leaves both the queue and
    the run loop empty (the adapters do not call back). *)
Theorem scheduleSaves_flush_in_one_tick (w : World) (saves : list (ref * pref)) :
  adapters_never_call_back w →
  _pendingSave w = [] → runOnce w = [] → saves ≠ [] →
  ∃ w1 w2,
    forEach saves (λ '(r, p), scheduleSave r p) w = (w1, Return tt) ∧
    _pendingSave w1 = saves ∧
    runOnce w1 = [T_flushPendingSave] ∧
    tick w1 = (w2, Return tt) ∧
    adapterLog w2 = adapterLog w ++ map (flushCall w1) saves ∧
    _pendingSave w2 = [] ∧ runOnce w2 = [].
Proof.
  intros Hq Hpend Hrun Hne.
  destruct (forEach_scheduleSave_queue saves w) as (w1 & H1 & Hq1 & _ & Hr1 & Ha1 & Hl1).
  rewrite Hpend in Hq1. rewrite Hrun in Hr1. cbn in Hq1, Hr1.
  specialize (Hr1 Hne (not_elem_of_nil _)).
  set (w1' := set_runOnce (λ _, []) w1).
  destruct (flushPendingSave_quiet w1')
    as (w2 & H2 & Hlog & Hq2 & _ & _ & _ & Hr2).
  { intros T. destruct (Hq T) as (a & Ha & Hquiet). exists a. cbn. by rewrite Ha1. }
  exists w1, w2. split; [done|]. split; [done|]. split; [done|].
  split.
  { unfold tick. unfold bind at 1. unfold gets at 1. rewrite Hr1.
    unfold bind at 1. unfold modify at 1. fold w1'. cbn.
    by rewrite (bind_Return _ _ _ _ _ H2). }
  split.
  { rewrite Hlog. cbn. rewrite Hl1, Hq1. f_equal. }
  done.
Qed.

Lemma scheduleSaves_flush_in_one_tick_witness :
  ∃ w1 w2,
    forEach [(0, 0); (0, 1)] (λ '(r, p), scheduleSave r p) oneDirtyRecord
      = (w1, Return tt) ∧
    runOnce w1 = [T_flushPendingSave] ∧
    tick w1 = (w2, Return tt) ∧
    adapterLog w2 = [A_updateRecord Person 0 0; A_updateRecord Person 0 1] ∧
    _pendingSave w2 = [] ∧ runOnce w2 = [].
Proof.
  destruct (scheduleSaves_flush_in_one_tick oneDirtyRecord [(0, 0); (0, 1)])
    as (w1 & w2 & H1 & _ & Hr1 & Htick & Hlog & Hq2 & Hr2).
  - by apply quiet_freshStore_like.
  - reflexivity.
  - reflexivity.
  - discriminate.
  - exists w1, w2. split; [done|]. split; [done|]. split; [done|].
    split; [|done].
    assert (Hw1 : w1 = (forEach [(0, 0); (0, 1)] (λ '(r, p), scheduleSave r p)
                          oneDirtyRecord).1) by (by rewrite H1).
    rewrite Hlog, Hw1. reflexivity.
Defined.

(** * Type metadata *)

Lemma metaForType_effect (w : World) (type : EntityType) (property : string) (data : jsval) :
  propertyName property = true →
  ∃ w',
    metaForType type property data w = (w', Return tt) ∧
    sinceTokenOf w' type =
      (if decide (property = "since") then data else sinceTokenOf w type) ∧
    findAllCacheOf w' type = findAllCacheOf w type ∧
    idToRecordOf w' type = idToRecordOf w type ∧
    recordsOf w' type = recordsOf w type ∧
    (∀ type', type' ≠ type → typeMaps w' !! type' = typeMaps w !! type') ∧
    heap w' = heap w ∧ arrays w' = arrays w ∧ promises w' = promises w ∧
    adapters w' = adapters w ∧ adapterLog w' = adapterLog w.
Proof.
  intros Hname. unfold metaForType, typeMapFor, updateTypeMap. rewrite Hname. munfold.
  destruct (typeMaps w !! type) as [typeMap|] eqn:Htm; cbn;
    (eexists; split; [reflexivity|]); cbn;
    (split; [view_simpl; rewrite ?Htm; cbn;
             case_decide as Hp;
             [subst; by rewrite lookup_insert_eq
             |by rewrite lookup_insert_ne, ?lookup_empty by done]|]);
    repeat (split; [first [done | view_simpl; rewrite ?Htm; done]|]);
    (split; [intros type' Hne; by rewrite ?lookup_alter_ne, ?lookup_insert_ne|done]).
Qed.

Lemma findAll_log (w : World) (type : EntityType) (a : Adapter) :
  adapters w type = Some a → implements a HFindAll = true →
  ∃ w', findAll type w = (w', Return (length (promises w))) ∧
        adapterLog w' =
          adapterLog w ++ [A_findAll type (sinceTokenOf w type) (length (promises w))].
Proof.
  intros Ha Hhook. unfold findAll.
  destruct (findAllCacheOf w type) as [c|] eqn:Hcache.
  - rewrite (bind_Return _ _ _ _ _ (all_cached w type c Hcache)).
    eexists. split; [by eapply fetchAll_eq|].
    by destruct (fetchingAll_views w type c) as (_ & _ & _ & _ & _ & ->).
  - destruct (all_first w type Hcache)
      as (w1 & Hall & _ & _ & Hs & _ & _ & Hp & Had & Hl).
    rewrite (bind_Return _ _ _ _ _ Hall), <- Hp.
    eexists. split; [eapply fetchAll_eq; [by rewrite Had|done]|].
    destruct (fetchingAll_views w1 type (length (arrays w))) as (_ & _ & _ & _ & _ & ->).
    by rewrite Hl, Hs.
Qed.

(** X13.  The [since] token is a round trip through the type's metadata:
    after [metaForType(type, "since", token)] the next [findAll] for the
    type passes exactly that token to the adapter, whatever was stored
    before.  Metadata under any other name of a property (a property that
    is not empty and has no dot in it, so that [Ember.set] does not take it
    for a path) leaves the token alone, and with the name of a property
    [metaForType] returns and does not touch the records, the index or
    another type. *)
Theorem metaForType_since_reaches_adapter
    (w : World) (type : EntityType) (property : string) (data : jsval) (a : Adapter) :
  propertyName property = true →
  adapters w type = Some a → implements a HFindAll = true →
  ∃ w1 w2 p,
    metaForType type property data w = (w1, Return tt) ∧
    findAll type w1 = (w2, Return p) ∧
    adapterLog w2 =
      adapterLog w ++
      [A_findAll type (if decide (property = "since") then data
                       else sinceTokenOf w type) p] ∧
    idToRecordOf w1 type = idToRecordOf w type ∧
    recordsOf w1 type = recordsOf w type ∧
    heap w1 = heap w ∧
    (∀ type', type' ≠ type → typeMaps w1 !! type' = typeMaps w !! type').
Proof.
  intros Hname Ha Hhook.
  destruct (metaForType_effect w type property data Hname)
    as (w1 & Hmeta & Hs & _ & Hidx & Hrecs & Hother & Hheap & _ & Hp & Had & Hl).
  destruct (findAll_log w1 type a) as (w2 & Hfind & Hlog); [by rewrite Had|done|].
  exists w1, w2, (length (promises w1)).
  split; [done|]. split; [done|].
  split; [by rewrite Hlog, Hl, Hs|]. done.
Qed.

Lemma metaForType_since_reaches_adapter_witness :
  let w := (metaForType Person "since" (JStr "t1") freshStore).1 in
  ∃ w1 w2 p,
    metaForType Person "since" (JStr "t2") w = (w1, Return tt) ∧
    findAll Person w1 = (w2, Return p) ∧
    adapterLog w2 = [A_findAll Person (JStr "t2") p].
Proof.
  intros w.
  destruct (metaForType_since_reaches_adapter w Person "since" (JStr "t2") quietAdapter)
    as (w1 & w2 & p & H1 & H2 & Hlog & _); [reflexivity..|].
  by exists w1, w2, p.
Defined.

(** * Acknowledging saves *)

Lemma adapterDidCommit_not_empty (st : RecordState) :
  st ≠ Empty → state_isEmpty (adapterDidCommit_state st) = false.
Proof. by destruct st. Qed.

(** X14.  The acknowledgement of a save makes the record findable under
    the acknowledged id.  After [didSaveRecord(record, data)] is accepted
    for a live, non-empty record, [findById] for [data.id] is a cache hit:
    it answers with a promise already fulfilled with that same record, and
    the adapter is not called. *)
Theorem didSaveRecord_then_findById
    (w : World) (record : ref) (d : Payload) :
  record < length (heap w) →
  rec_state (getRecord w record) ≠ Empty →
  rec_id (getRecord w record) = JNull ∨
    coerceId (payload_id d) = rec_id (getRecord w record) →
  ∃ w1 w2 p,
    didSaveRecord record (Some d) w = (w1, Return tt) ∧
    rec_id (getRecord w1 record) = coerceId (payload_id d) ∧
    findById (rec_type (getRecord w record)) (payload_id d) w1 = (w2, Return p) ∧
    promises w2 !! p = Some (Fulfilled record) ∧
    adapterLog w2 = adapterLog w.
Proof.
  intros Hlt Hstate Hok.
  destruct (updateId_ok w record d Hlt Hok) as (wu & Hup & Hidx & Hrec & Hlog).
  assert (Hlen : length (heap wu) = length (heap w)).
  { unfold updateId, typeMapFor, updateTypeMap, updateRecord in Hup. munfold.
    cbn in Hup.
    destruct (bool_decide _ || bool_decide _); [|discriminate]. cbn in Hup.
    destruct (typeMaps w !! _); cbn in Hup; injection Hup as <-; cbn;
      by rewrite length_insert. }
  set (w1 := set_heap (λ h, <[record := with_state adapterDidCommit_state (h !!! record)]> h) wu).
  assert (Hsave : didSaveRecord record (Some d) w = (w1, Return tt)).
  { unfold didSaveRecord. by rewrite (bind_Return _ _ _ _ _ Hup). }
  assert (Hrec1 : getRecord w1 record = with_state adapterDidCommit_state
                    (with_id (coerceId (payload_id d)) (getRecord w record))).
  { unfold getRecord, w1. cbn. rewrite list_lookup_total_insert_eq by lia.
    unfold getRecord in Hrec. by rewrite Hrec. }
  exists w1. eexists _, _. split; [done|].
  split; [by rewrite Hrec1|]. split.
  { apply findById_cached; [exact Hidx|].
    rewrite Hrec1. unfold isEmpty. cbn. by apply adapterDidCommit_not_empty. }
  cbn. split; [by apply list_lookup_middle|done].
Qed.

Lemma didSaveRecord_then_findById_witness :
  let w := (scheduleSave 0 0
              (createRecord noIdHook Person None freshStore).1).1 in
  ∃ w1 w2 p,
    didSaveRecord 0 (Some {| payload_id := JNum 42 |}) w = (w1, Return tt) ∧
    findById Person (JNum 42) w1 = (w2, Return p) ∧
    promises w2 !! p = Some (Fulfilled 0) ∧
    adapterLog w2 = [].
Proof.
  intros w.
  destruct (didSaveRecord_then_findById w 0 {| payload_id := JNum 42 |})
    as (w1 & w2 & p & H1 & _ & H2 & Hp & Hlog).
  - vm_compute. lia.
  - vm_compute. discriminate.
  - left. reflexivity.
  - by exists w1, w2, p.
Defined.

Lemma adapterDidCommit_state_idem (st : RecordState) :
  adapterDidCommit_state (adapterDidCommit_state st) = adapterDidCommit_state st.
Proof. by destruct st. Qed.

Lemma didSaveRecordsFrom_without_data
    (records : list ref) (i : nat) (dataList : option (list Payload)) (w : World) :
  dataList = None ∨ dataList = Some [] →
  ∃ w',
    didSaveRecordsFrom i records dataList w = (w', Return tt) ∧
    typeMaps w' = typeMaps w ∧ adapterLog w' = adapterLog w ∧
    length (heap w') = length (heap w) ∧
    (∀ r, rec_id (getRecord w' r) = rec_id (getRecord w r) ∧
          rec_type (getRecord w' r) = rec_type (getRecord w r)) ∧
    (∀ r, r ∉ records → getRecord w' r = getRecord w r) ∧
    (∀ r, r ∈ records → r < length (heap w) →
          rec_state (getRecord w' r) = adapterDidCommit_state (rec_state (getRecord w r))).
Proof.
  intros Hnone. revert i w. induction records as [|x records IH]; intros i w.
  - exists w. repeat split; try done. by intros r ?%not_elem_of_nil.
  - cbn [didSaveRecordsFrom].
    assert (Hdata : match dataList with Some l => l !! i | None => None end = None).
    { destruct Hnone as [->| ->]; [done|apply lookup_nil]. }
    rewrite Hdata. unfold didSaveRecord.
    set (w0 := set_heap (λ h, <[x := with_state adapterDidCommit_state (h !!! x)]> h) w).
    assert (H0 : (ret tt ;; adapterDidCommit x) w = (w0, Return tt)) by done.
    rewrite (bind_Return _ _ _ _ _ H0).
    destruct (IH (S i) w0) as (w' & H' & Htm & Hlog & Hlen & Hids & Hframe & Hstate).
    assert (Hlen0 : length (heap w0) = length (heap w)) by (cbn; by rewrite length_insert).
    assert (Hx : ∀ r, r ≠ x → getRecord w0 r = getRecord w r).
    { intros r Hr. unfold getRecord. cbn. by rewrite list_lookup_total_insert_ne. }
    assert (Hxx : x < length (heap w) →
                  getRecord w0 x = with_state adapterDidCommit_state (getRecord w x)).
    { intros Hlt. unfold getRecord. cbn. by rewrite list_lookup_total_insert_eq. }
    assert (Hxge : ¬ x < length (heap w) → getRecord w0 x = getRecord w x).
    { intros Hge. unfold getRecord. cbn. by rewrite list_insert_ge by lia. }
    exists w'. split; [done|]. split; [done|]. split; [done|]. split; [lia|].
    split.
    { intros r. destruct (Hids r) as (-> & ->).
      destruct (decide (r = x)) as [->|Hne]; [|by rewrite Hx].
      destruct (decide (x < length (heap w))) as [Hlt|Hge].
      - by rewrite Hxx.
      - by rewrite Hxge. }
    split.
    { intros r Hr. rewrite Hframe.
      - apply Hx. intros ->. apply Hr. apply list_elem_of_here.
      - intros Hin. apply Hr. by apply list_elem_of_further. }
    intros r Hr Hlt.
    destruct (decide (r ∈ records)) as [Hin|Hnotin].
    + rewrite (Hstate r Hin) by lia.
      destruct (decide (r = x)) as [->|Hne].
      * rewrite Hxx by done. cbn. apply adapterDidCommit_state_idem.
      * by rewrite Hx.
    + apply elem_of_cons in Hr as [->|Hr]; [|done].
      by rewrite (Hframe x Hnotin), Hxx.
Qed.

(** X15.  [didSaveRecords] without data (no data list, or an empty one)
    acknowledges every listed record and can not fail: each listed record
    moves as [adapterDidCommit] moves it, however often it is listed; no
    id, no type map and no other record changes, and the adapter is not
    called. *)
Theorem didSaveRecords_without_data
    (records : list ref) (dataList : option (list Payload)) (w : World) :
  dataList = None ∨ dataList = Some [] →
  ∃ w',
    didSaveRecords records dataList w = (w', Return tt) ∧
    typeMaps w' = typeMaps w ∧ adapterLog w' = adapterLog w ∧
    (∀ r, rec_id (getRecord w' r) = rec_id (getRecord w r)) ∧
    (∀ r, r ∉ records → getRecord w' r = getRecord w r) ∧
    (∀ r, r ∈ records → r < length (heap w) →
          rec_state (getRecord w' r) = adapterDidCommit_state (rec_state (getRecord w r))).
Proof.
  intros Hnone.
  destruct (didSaveRecordsFrom_without_data records 0 dataList w Hnone)
    as (w' & H & Htm & Hlog & _ & Hids & Hframe & Hstate).
  exists w'. repeat (split; [done|]). split; [|done].
  intros r. apply Hids.
Qed.

Lemma didSaveRecords_without_data_witness :
  let w := (scheduleSave 1 1 (scheduleSave 0 0 twoNewRecords).1).1 in
  rec_state (getRecord w 0) = InFlightCreate ∧
  ∃ w', didSaveRecords [0; 1; 0] None w = (w', Return tt) ∧
        rec_state (getRecord w' 0) = Saved ∧
        rec_state (getRecord w' 1) = Saved.
Proof.
  intros w. split; [reflexivity|].
  destruct (didSaveRecords_without_data [0; 1; 0] None w) as (w' & H & _ & _ & _ & _ & Hst).
  - by left.
  - exists w'. split; [done|]. split.
    + rewrite Hst; [reflexivity|apply list_elem_of_here|vm_compute; lia].
    + rewrite Hst; [reflexivity| |vm_compute; lia].
      apply list_elem_of_further, list_elem_of_here.
Defined.

(** * Relationship changes *)

Ltac levels :=
  repeat match goal with
         | |- context [default ∅ (?m !! ?k)] =>
             lazymatch m with
             | context [default _ _] => fail
             | _ => destruct (m !! k); cbn; repeat (rewrite lookup_empty; cbn)
             end
         end; try done.

(** [if (!(k in m)) m[k] = {}] followed by a write through [m[k]]. *)
Lemma ensureKey_alter {A} (f : gmap string A → gmap string A) (k k' : string)
    (m : gmap string (gmap string A)) :
  alter f k (ensureKey k m) !! k' =
    if decide (k' = k) then Some (f (default ∅ (m !! k))) else m !! k'.
Proof.
  unfold ensureKey, hasKey.
  destruct (decide (k' = k)) as [->|Hne].
  - rewrite lookup_alter_eq. case_bool_decide as Hk.
    + destruct Hk as [x Hx]. by rewrite Hx.
    + rewrite lookup_insert_eq. cbn.
      destruct (m !! k) eqn:Hm; [|done]. exfalso. apply Hk. by eexists.
  - rewrite lookup_alter_ne by done. case_bool_decide; [done|].
    by rewrite lookup_insert_ne.
Qed.

(** What [addRelationshipChangeFor] leaves at every position of the
    ledger. *)
Lemma changeAt_add (c : jsval) (ck : string) (p : parentArg) (pk : string)
    (change : RelationshipChange) (changes : Changes) (cid pid key ty : string) :
  changeAt (addRelationshipChangeFor c ck p pk change changes) cid pid key ty =
    if decide (cid = toString c ∧ pid = parentKeyOnAdd p ∧ key = ck +:+ pk ∧
               ty = changeType change)
    then Some change else changeAt changes cid pid key ty.
Proof.
  unfold addRelationshipChangeFor, changeAt. cbv zeta.
  rewrite !alter_alter_eq, ensureKey_alter.
  destruct (decide (cid = toString c)) as [->|Hc]; cbn.
  - rewrite !alter_alter_eq, ensureKey_alter.
    destruct (decide (pid = parentKeyOnAdd p)) as [->|Hp]; cbn.
    + rewrite ensureKey_alter.
      destruct (decide (key = ck +:+ pk)) as [->|Hk]; cbn.
      * destruct (decide (ty = changeType change)) as [->|Ht].
        -- rewrite lookup_insert_eq. by rewrite decide_True.
        -- rewrite lookup_insert_ne by done. rewrite decide_False by (intros (? & ? & ? & ?); done).
           levels.
      * rewrite decide_False by (intros (? & ? & ? & ?); done).
        levels.
    + rewrite decide_False by (intros (? & ? & ? & ?); done).
      levels.
  - by rewrite decide_False by (intros (? & ? & ? & ?); done).
Qed.



(** X17.  The relation key of a change is the concatenation of the child
    key and the parent key, so two relationships whose keys concatenate to
    the same string share a position: registering a change of the same type
    for the second replaces the change registered for the first. *)
Theorem addRelationshipChangeFor_last_wins
    (c : jsval) (ck ck' : string) (p : parentArg) (pk pk' : string)
    (change change' : RelationshipChange) (changes : Changes) :
  ck' +:+ pk' = ck +:+ pk →
  changeType change' = changeType change →
  changeAt (addRelationshipChangeFor c ck' p pk' change'
              (addRelationshipChangeFor c ck p pk change changes))
           (toString c) (parentKeyOnAdd p) (ck +:+ pk) (changeType change)
    = Some change'.
Proof.
  intros Hkey Hty. rewrite changeAt_add. by rewrite decide_True.
Qed.

Lemma addRelationshipChangeFor_last_wins_witness :
  changeAt (addRelationshipChangeFor (JNum 1) "a" (P_value JNull) "bc"
              {| changeType := "add"; changeName := 2 |}
              (addRelationshipChangeFor (JNum 1) "ab" (P_value JNull) "c"
                 {| changeType := "add"; changeName := 1 |} ∅))
           "1" "null" "abc" "add"
    = Some {| changeType := "add"; changeName := 2 |}.
Proof.
  apply (addRelationshipChangeFor_last_wins (JNum 1) "ab" "a" (P_value JNull) "c" "bc"
           {| changeType := "add"; changeName := 1 |}
           {| changeType := "add"; changeName := 2 |} ∅); reflexivity.
Defined.






(** * Soundness of the identity index *)

Lemma index_sound_same_index (w w' : World) :
  index_sound w → same_index w w' → index_sound w'.
Proof.
  intros Hs (Htm & Hlen & Hids) T k r Hlook.
  destruct (typeMaps_views w w' T Htm) as [Hidx Hrecs].
  rewrite Hidx in Hlook. destruct (Hs T k r Hlook) as (Hlt & Hty & Hid & Hin).
  destruct (Hids r) as [-> ->]. by rewrite Hlen, Hrecs.
Qed.

(** One more record at the next heap address, indexed under its id when
    the id is truthy. *)
Lemma index_sound_extend (w w1 : World) (type : EntityType) (id : jsval) :
  index_sound w →
  length (heap w1) = S (length (heap w)) →
  rec_type (getRecord w1 (length (heap w))) = type →
  rec_id (getRecord w1 (length (heap w))) = id →
  (∀ r, r < length (heap w) → getRecord w1 r = getRecord w r) →
  idToRecordOf w1 type =
    (if truthy id then <[toString id := length (heap w)]> (idToRecordOf w type)
     else idToRecordOf w type) →
  recordsOf w1 type = recordsOf w type ++ [length (heap w)] →
  (∀ type', type' ≠ type → typeMaps w1 !! type' = typeMaps w !! type') →
  index_sound w1.
Proof.
  intros Hs Hlen Hty Hid Hold Hidx Hrecs Hother T k r Hlook.
  assert (Hcase : idToRecordOf w T !! k = Some r ∨
                  (T = type ∧ k = toString id ∧ r = length (heap w))).
  { destruct (decide (T = type)) as [->|Hne].
    - rewrite Hidx in Hlook. destruct (truthy id); [|by left].
      destruct (decide (k = toString id)) as [->|Hk].
      + rewrite lookup_insert_eq in Hlook. right. by injection Hlook as <-.
      + rewrite lookup_insert_ne in Hlook by congruence. by left.
    - left. unfold idToRecordOf in *. by rewrite <- (Hother T Hne). }
  destruct Hcase as [Hw|(-> & -> & ->)].
  - destruct (Hs T k r Hw) as (Hlt & HT & Hk & Hin).
    rewrite (Hold r Hlt). split; [lia|]. split; [done|]. split; [done|].
    destruct (decide (T = type)) as [->|Hne].
    + rewrite Hrecs. apply elem_of_app. by left.
    + unfold recordsOf, knownRecords in *. by rewrite (Hother T Hne).
  - split; [lia|]. split; [done|]. split; [by rewrite Hid|].
    rewrite Hrecs. apply elem_of_app. right. by apply list_elem_of_singleton.
Qed.

Lemma index_sound_built (w w' : World) (type : EntityType) (id : jsval) :
  index_sound w → built w type id w' → index_sound w'.
Proof.
  intros Hs Hb. pose proof (built_getRecord _ _ _ _ Hb) as Hnew.
  destruct Hb as [Hheap Hidx Hrecs _ Hother _].
  apply (index_sound_extend w w' type id); try done.
  - rewrite Hheap, length_app. cbn. lia.
  - by rewrite Hnew.
  - by rewrite Hnew.
  - intros r Hlt. unfold getRecord. by rewrite Hheap, lookup_total_app_l.
Qed.

Lemma index_sound_ensureTypeMap (w : World) (type : EntityType) :
  index_sound w → index_sound (ensureTypeMap type w).
Proof.
  intros Hs T k r Hlook.
  destruct (ensureTypeMap_views w type T) as [Hidx Hrecs].
  rewrite Hidx in Hlook. rewrite Hrecs.
  assert (Hheap : heap (ensureTypeMap type w) = heap w)
    by (unfold ensureTypeMap; by destruct (typeMaps w !! type)).
  unfold getRecord. rewrite Hheap. by apply Hs.
Qed.

(** The lookups never fail: they return the record in the slot or one
    they build, or they come upon an inherited property and have built
    nothing. *)
Lemma recordForId_total (w : World) (type : EntityType) (v : jsval) :
  (∃ w1 r, recordForId type v w = (w1, Return r) ∧
           (w1 = w ∨ built w type (coerceId v) w1)) ∨
  recordForId type v w =
    (ensureTypeMap type w, Outside (InheritedProperty (toString (coerceId v)))).
Proof.
  destruct (idToRecordOf w type !! toString (coerceId v)) as [r|] eqn:Hlook.
  - left. exists w, r. split; [by apply recordForId_hit|by left].
  - destruct (inheritedKey (toString (coerceId v))) eqn:Hkey.
    + right. by apply recordForId_inherited.
    + left. destruct (recordForId_miss w type v Hlook Hkey) as (w1 & H & Hb).
      exists w1, (length (heap w)). split; [done|by right].
Qed.

Lemma getById_total (w : World) (type : EntityType) (v : jsval) :
  (∃ w1 r, getById type v w = (w1, Return r) ∧ (w1 = w ∨ built w type v w1)) ∨
  getById type v w =
    (ensureTypeMap type w, Outside (InheritedProperty (toString (coerceId v)))).
Proof.
  destruct (idToRecordOf w type !! toString (coerceId v)) as [r|] eqn:Hlook.
  - left. exists w, r. split; [by apply getById_hit|by left].
  - destruct (inheritedKey (toString (coerceId v))) eqn:Hkey.
    + right. by apply getById_inherited.
    + left. destruct (getById_miss w type v Hlook Hkey) as (w1 & H & Hb).
      exists w1, (length (heap w)). split; [done|by right].
Qed.

Lemma insert_with_state_ids (h : list RecordObj) (x r : nat)
    (f : RecordState → RecordState) :
  rec_id (<[x := with_state f (h !!! x)]> h !!! r) = rec_id (h !!! r) ∧
  rec_type (<[x := with_state f (h !!! x)]> h !!! r) = rec_type (h !!! r).
Proof.
  destruct (decide (x = r)) as [->|Hne].
  - destruct (decide (r < length h)) as [Hlt|Hge].
    + by rewrite list_lookup_total_insert_eq.
    + by rewrite list_insert_ge by lia.
  - by rewrite list_lookup_total_insert_ne.
Qed.

(** [fetchRecord] changes a state, the promises and the adapter's log,
    also when one of its assertions fails. *)
Lemma fetchRecord_same_index (record : ref) (w : World) :
  same_index w (fetchRecord record w).1.
Proof.
  unfold fetchRecord, defer, loadingData, updateRecord, adapterForType, callAdapter,
    adapterImplements.
  munfold. cbn.
  destruct (adapters w (rec_type (getRecord w record))) as [a|]; cbn;
    [destruct (implements a HFind); cbn|];
    (split; [done|]); (split; [cbn; by rewrite length_insert|]);
    intros r; unfold getRecord; cbn; apply insert_with_state_ids.
Qed.

Lemma index_sound_recordForId (w : World) (type : EntityType) (v : jsval) :
  index_sound w → index_sound (recordForId type v w).1.
Proof.
  intros Hs.
  destruct (recordForId_total w type v) as [(w1 & r & -> & [->|Hb])| ->]; cbn;
    [done|by eapply index_sound_built|by apply index_sound_ensureTypeMap].
Qed.

Lemma index_sound_getById (w : World) (type : EntityType) (v : jsval) :
  index_sound w → index_sound (getById type v w).1.
Proof.
  intros Hs.
  destruct (getById_total w type v) as [(w1 & r & -> & [->|Hb])| ->]; cbn;
    [done|by eapply index_sound_built|by apply index_sound_ensureTypeMap].
Qed.

Lemma index_sound_findById (w : World) (type : EntityType) (v : jsval) :
  index_sound w → index_sound (findById type v w).1.
Proof.
  intros Hs. pose proof (index_sound_getById w type v Hs) as H1.
  destruct (getById_total w type v) as [(w1 & r & H & _)|H].
  - rewrite H in H1. cbn in H1. rewrite (findById_step _ _ _ _ _ H).
    destruct (isEmpty (getRecord w1 r)).
    + eapply index_sound_same_index; [exact H1|apply fetchRecord_same_index].
    + eapply index_sound_same_index; [exact H1|]. by repeat split.
  - rewrite H in H1. unfold findById. by rewrite (bind_Outside _ _ _ _ _ H).
Qed.

Lemma index_sound_freshStore : index_sound freshStore.
Proof.
  intros T k r H. unfold idToRecordOf in H. cbn in H.
  by rewrite lookup_empty in H.
Qed.

Lemma index_sound_oneDirtyRecord : index_sound oneDirtyRecord.
Proof.
  intros T k r H. unfold idToRecordOf in H. cbn [typeMaps oneDirtyRecord] in H.
  destruct (decide (T = Person)) as [->|Hne].
  - rewrite lookup_singleton_eq in H. cbn [idToRecord] in H.
    apply lookup_singleton_Some in H as [<- <-].
    repeat split; try done; [cbn; lia|].
    unfold recordsOf, knownRecords. cbn [typeMaps oneDirtyRecord].
    rewrite lookup_singleton_eq. apply list_elem_of_here.
  - rewrite lookup_singleton_ne in H by done. by rewrite lookup_empty in H.
Qed.

(** X21.  The lookups keep the identity index sound, whether they find a
    record, build one, or ([findById]) fail for want of an adapter: if every
    slot of every type holds a live record of that type that carries the
    slot's id and is in the type's record list, the same is true after
    [recordForId], [getById] and [findById]. *)
Theorem lookups_keep_index_sound (w : World) (type : EntityType) (id : jsval) :
  index_sound w →
  index_sound (recordForId type id w).1 ∧
  index_sound (getById type id w).1 ∧
  index_sound (findById type id w).1.
Proof.
  intros Hs. split; [|split].
  - by apply index_sound_recordForId.
  - by apply index_sound_getById.
  - by apply index_sound_findById.
Qed.

Lemma lookups_keep_index_sound_witness :
  index_sound (findById Person (JNum 2) oneDirtyRecord).1 ∧
  idToRecordOf (findById Person (JNum 2) oneDirtyRecord).1 Person !! "2" = Some 1.
Proof.
  split; [|reflexivity].
  apply (lookups_keep_index_sound oneDirtyRecord Person (JNum 2)).
  apply index_sound_oneDirtyRecord.
Defined.

(** The id [createRecord] settles on is fixed before any record is built. *)
Lemma createRecord_id_step
    (gen : Adapter → option (World → jsval)) (w : World) (type : EntityType)
    (properties : option Payload) :
  createRecord gen type properties w =
    (let id := createdId gen w type properties in
     let! record := buildRecord type id None in
     loadedData record ;; setProperties record id ;; ret record) w.
Proof.
  unfold createRecord, createdId, _generateId, adapterForType. cbv zeta.
  destruct (looseEqNull _); [|done].
  unfold bind at 1. unfold bind at 1. unfold gets at 1.
  destruct (adapters w type) as [a|]; [|done].
  by destruct (gen a).
Qed.

(** X22.  [createRecord] keeps the identity index sound, whatever id is
    given or generated and also when it refuses an id that is in use. *)
Theorem createRecord_keeps_index_sound
    (gen : Adapter → option (World → jsval)) (w : World) (type : EntityType)
    (properties : option Payload) :
  index_sound w → index_sound (createRecord gen type properties w).1.
Proof.
  intros Hs.
  destruct (truthy (createdId gen w type properties)) eqn:Hid.
  - destruct (idToRecordOf w type !! toString (createdId gen w type properties))
      as [r|] eqn:Hslot.
    + rewrite createRecord_id_step. cbv zeta.
      by rewrite (bind_Throw _ _ _ _ _ (buildRecord_taken w type _ None r Hid Hslot)).
    + destruct (inheritedKey (toString (createdId gen w type properties))) eqn:Hkey.
      * rewrite createRecord_id_step. cbv zeta.
        rewrite (bind_Throw _ _ _ _ _ (buildRecord_inherited w type _ None Hid Hslot Hkey)).
        cbn. by apply index_sound_ensureTypeMap.
      * destruct (createRecord_eq gen w type properties (or_intror (conj Hslot Hkey)))
          as (w1 & -> & Hnew & Hlen & Hold & Hidx & Hrecs & Hother & _).
        cbn. eapply (index_sound_extend w w1 type); try done; by rewrite Hnew.
  - destruct (createRecord_eq gen w type properties (or_introl Hid))
      as (w1 & -> & Hnew & Hlen & Hold & Hidx & Hrecs & Hother & _).
    cbn. eapply (index_sound_extend w w1 type); try done; by rewrite Hnew.
Qed.

Lemma createRecord_keeps_index_sound_witness :
  index_sound (createRecord countingIdHook Person None oneDirtyRecord).1 ∧
  idToRecordOf (createRecord countingIdHook Person None oneDirtyRecord).1 Person !! "101"
    = Some 1.
Proof.
  split; [|reflexivity].
  apply (createRecord_keeps_index_sound countingIdHook oneDirtyRecord Person None).
  apply index_sound_oneDirtyRecord.
Defined.

(** [load] after its lookup touches one record's state and the record
    arrays. *)
Lemma load_same_index (rdc : ref → M unit) (type : EntityType) (data : Payload) (w : World) :
  manager_only rdc →
  (∃ wa w1 record,
     recordForId type (payload_id data) w = (wa, Return record) ∧
     load rdc type data w = (w1, Return record) ∧
     same_index wa w1) ∨
  (∃ x, load rdc type data w = (ensureTypeMap type w, Outside x)).
Proof.
  intros Hrdc.
  assert (Hsame : recordForId type (coerceId (payload_id data)) =
                  recordForId type (payload_id data)).
  { unfold recordForId. by rewrite coerceId_idempotent. }
  destruct (recordForId_total w type (payload_id data)) as [(wa & record & Hrec & _)|Hout].
  - left. unfold load. cbv zeta. rewrite Hsame, (bind_Return _ _ _ _ _ Hrec).
    unfold setupData, updateRecord. unfold bind at 1. unfold modify at 1.
    set (wb := set_heap _ wa).
    destruct (Hrdc record wb) as (w1 & H1 & Hheap & Htm & Hlog).
    rewrite (bind_Return _ _ _ _ _ H1).
    exists wa, w1, record. split; [done|]. split; [done|].
    split; [done|]. split.
    + rewrite Hheap. cbn. by rewrite length_insert.
    + intros r. unfold getRecord. rewrite Hheap. cbn. apply insert_with_state_ids.
  - right. eexists. unfold load. cbv zeta. rewrite Hsame.
    by rewrite (bind_Outside _ _ _ _ _ Hout).
Qed.

(** X23.  [push] keeps the identity index sound for every payload, with or
    without an id, as long as the record array manager's [recordDidChange]
    keeps to the record arrays. *)
Theorem push_keeps_index_sound
    (rdc : ref → M unit) (deserialize : EntityType → Payload → Payload)
    (type : EntityType) (data : Payload) (w : World) :
  manager_only rdc →
  index_sound w →
  index_sound (push rdc deserialize type data w).1.
Proof.
  intros Hrdc Hs. unfold push. cbv zeta.
  destruct (load_same_index rdc type (deserialize type data) w Hrdc)
    as [(wa & w1 & record & Hrec & Hload & Hsame)|(x & Hout)].
  - rewrite (bind_Return _ _ _ _ _ Hload).
    apply index_sound_recordForId.
    eapply index_sound_same_index; [|exact Hsame].
    pose proof (index_sound_recordForId w type (payload_id (deserialize type data)) Hs)
      as Ha.
    by rewrite Hrec in Ha.
  - rewrite (bind_Outside _ _ _ _ _ Hout). cbn. by apply index_sound_ensureTypeMap.
Qed.

Lemma push_keeps_index_sound_witness :
  index_sound
    (push addToArraysOfType (λ _ d, d) Person {| payload_id := JNum 2 |} oneDirtyRecord).1 ∧
  idToRecordOf
    (push addToArraysOfType (λ _ d, d) Person {| payload_id := JNum 2 |} oneDirtyRecord).1
    Person !! "2" = Some 1.
Proof.
  split; [|reflexivity].
  apply (push_keeps_index_sound addToArraysOfType (λ _ d, d) Person
           {| payload_id := JNum 2 |} oneDirtyRecord).
  - apply manager_only_addToArraysOfType.
  - apply index_sound_oneDirtyRecord.
Defined.

(** X24.  Unloading keeps the identity index sound when the record is in
    its type's record list and its id is truthy (or the record is not
    indexed under its id): afterwards [dematerializeRecord] has returned,
    every slot still holds a live listed record carrying the slot's id, and
    no slot of any type holds the unloaded record. *)
Theorem dematerializeRecord_keeps_index_sound (w : World) (record : ref) :
  let type := rec_type (getRecord w record) in
  let id := rec_id (getRecord w record) in
  index_sound w →
  record ∈ recordsOf w type →
  truthy id = true ∨ idToRecordOf w type !! toString id ≠ Some record →
  ∃ w', dematerializeRecord record w = (w', Return tt) ∧
        index_sound w' ∧
        ∀ T k, idToRecordOf w' T !! k ≠ Some record.
Proof.
  intros type id Hs Hin Hfree.
  destruct (dematerializeRecord_effect w record)
    as (w' & H & Hheap & _ & _ & _ & Hidx & Hrecs & Hother).
  fold type in Hidx, Hrecs, Hother. fold id in Hidx.
  exists w'. split; [done|].
  assert (Hreach : ∀ T k r, idToRecordOf w' T !! k = Some r →
                            idToRecordOf w T !! k = Some r ∧ r ≠ record).
  { intros T k r Hl. destruct (decide (T = type)) as [->|Hne].
    - rewrite Hidx in Hl. destruct (truthy id) eqn:Hid.
      + apply lookup_delete_Some in Hl as [Hk Hl]. split; [done|]. intros ->.
        destruct (Hs _ _ _ Hl) as (_ & _ & Hkk & _). by apply Hk.
      + destruct Hfree as [?|Hfree]; [congruence|]. split; [done|]. intros ->.
        destruct (Hs _ _ _ Hl) as (_ & _ & Hkk & _). apply Hfree. fold id in Hkk.
        by rewrite Hkk.
    - assert (Heq : idToRecordOf w' T = idToRecordOf w T)
        by (unfold idToRecordOf; by rewrite (Hother T Hne)).
      rewrite Heq in Hl. split; [done|]. intros ->.
      destruct (Hs _ _ _ Hl) as (_ & HT & _). by apply Hne. }
  split.
  - intros T k r Hl. destruct (Hreach T k r Hl) as [Hw Hne].
    destruct (Hs T k r Hw) as (Hlt & HT & Hk & Hlist).
    unfold getRecord. rewrite Hheap. split; [done|]. split; [done|]. split; [done|].
    destruct (decide (T = type)) as [->|HneT].
    + rewrite Hrecs.
      destruct (indexOf_first _ _ Hin) as (l1 & l2 & Hl12 & _ & Hloc).
      rewrite Hloc. cbn [splice1]. rewrite Hl12 in Hlist |- *.
      rewrite delete_middle.
      apply elem_of_app in Hlist as [?|Hlist]; apply elem_of_app; [by left|].
      apply elem_of_cons in Hlist as [?|?]; [done|by right].
    + unfold recordsOf, knownRecords. by rewrite (Hother T HneT).
  - intros T k Hl. by destruct (Hreach _ _ _ Hl) as [_ Hne].
Qed.

Lemma dematerializeRecord_keeps_index_sound_witness :
  ∃ w', dematerializeRecord 0 oneDirtyRecord = (w', Return tt) ∧
        index_sound w' ∧
        ∀ T k, idToRecordOf w' T !! k ≠ Some 0.
Proof.
  apply (dematerializeRecord_keeps_index_sound oneDirtyRecord 0).
  - apply index_sound_oneDirtyRecord.
  - vm_compute. apply list_elem_of_here.
  - left. reflexivity.
Defined.

(** What an accepted [updateId] does to the heap and to the index. *)
Lemma updateId_effect (w : World) (record : ref) (d : Payload) :
  let type := rec_type (getRecord w record) in
  let id := coerceId (payload_id d) in
  rec_id (getRecord w record) = JNull ∨ id = rec_id (getRecord w record) →
  ∃ w', updateId record d w = (w', Return tt) ∧
        heap w' = <[record := with_id id (getRecord w record)]> (heap w) ∧
        idToRecordOf w' type = <[toString id := record]> (idToRecordOf w type) ∧
        recordsOf w' type = recordsOf w type ∧
        ∀ type', type' ≠ type → typeMaps w' !! type' = typeMaps w !! type'.
Proof.
  intros type id Hok. subst type id.
  unfold updateId, typeMapFor, updateTypeMap, updateRecord.
  munfold. cbn.
  assert (bool_decide (rec_id (getRecord w record) = JNull)
          || bool_decide (coerceId (payload_id d) = rec_id (getRecord w record)) = true)
    as ->.
  { destruct Hok as [H|H].
    - by rewrite (bool_decide_eq_true_2 _ H).
    - rewrite (bool_decide_eq_true_2 _ H). apply orb_true_r. }
  unfold getRecord. cbn.
  destruct (typeMaps w !! rec_type (heap w !!! record)) as [typeMap|] eqn:Htm; cbn;
    (eexists; split; [reflexivity|]); cbn;
    (split; [done|]);
    (split; [view_simpl; by rewrite ?Htm|]);
    (split; [view_simpl; by rewrite ?Htm|]);
    intros type' Hne; by rewrite ?lookup_alter_ne, ?lookup_insert_ne.
Qed.

Lemma index_sound_updateId (w : World) (record : ref) (d : Payload) :
  let type := rec_type (getRecord w record) in
  index_sound w →
  record < length (heap w) →
  record ∈ recordsOf w type →
  idToRecordOf w type !! "null" ≠ Some record →
  ∃ w' o, updateId record d w = (w', o) ∧ index_sound w' ∧
          length (heap w') = length (heap w) ∧
          recordsOf w' type = recordsOf w type.
Proof.
  intros type Hs Hlive Hin Hnull.
  destruct (decide (rec_id (getRecord w record) = JNull ∨
                    coerceId (payload_id d) = rec_id (getRecord w record))) as [Hok|Hbad].
  2:{ exists w, (Throw (AssertionFailed IdentityConflict)).
      split; [|done]. apply updateId_conflict; intros ?; apply Hbad; [by left|by right]. }
  destruct (updateId_effect w record d Hok) as (w' & H & Hheap & Hidx & Hrecs & Hother).
  fold type in Hidx, Hrecs, Hother.
  exists w', (Return tt). split; [done|]. split; [|split; [by rewrite Hheap, length_insert|done]].
  intros T k r Hl.
  assert (Hrec : getRecord w' record = with_id (coerceId (payload_id d)) (getRecord w record)).
  { unfold getRecord. rewrite Hheap. by rewrite list_lookup_total_insert_eq. }
  assert (Hkeep : ∀ r', r' ≠ record → getRecord w' r' = getRecord w r').
  { intros r' Hne. unfold getRecord. rewrite Hheap.
    by rewrite list_lookup_total_insert_ne. }
  assert (Hlen : length (heap w') = length (heap w)) by (by rewrite Hheap, length_insert).
  assert (Hlist : ∀ r', r' ∈ recordsOf w T → r' ∈ recordsOf w' T).
  { intros r' Hr'. destruct (decide (T = type)) as [->|HneT]; [by rewrite Hrecs|].
    unfold recordsOf, knownRecords in *. by rewrite (Hother T HneT). }
  assert (Hcase : (T = type ∧ k = toString (coerceId (payload_id d)) ∧ r = record) ∨
                  (idToRecordOf w T !! k = Some r ∧
                   (T = type → k ≠ toString (coerceId (payload_id d))))).
  { destruct (decide (T = type)) as [->|HneT].
    - rewrite Hidx in Hl.
      destruct (decide (k = toString (coerceId (payload_id d)))) as [->|Hk].
      + rewrite lookup_insert_eq in Hl. left. by injection Hl as <-.
      + rewrite lookup_insert_ne in Hl by congruence. by right.
    - right. split; [|done]. unfold idToRecordOf in *. by rewrite <- (Hother T HneT). }
  destruct Hcase as [(-> & -> & ->)|[Hw Hk]].
  - rewrite Hrec, Hlen. split; [done|]. split; [done|]. split; [done|]. by apply Hlist.
  - destruct (Hs T k r Hw) as (Hlt & HT & Hkk & Hlisted).
    destruct (decide (r = record)) as [->|Hne].
    + exfalso. fold type in HT. subst T. specialize (Hk eq_refl).
      destruct Hok as [Hold|Hold].
      * rewrite Hold in Hkk. cbn in Hkk. subst k. by apply Hnull.
      * apply Hk. by rewrite Hold.
    + rewrite (Hkeep r Hne), Hlen. split; [done|]. split; [done|]. split; [done|].
      by apply Hlist.
Qed.

(** X25.  Acknowledging a save keeps the identity index sound, with or
    without a payload and also when the payload's id is refused: for a live
    record that is in its type's record list and is not filed under the key
    "null", [didSaveRecord] leaves the index sound. *)
Theorem didSaveRecord_keeps_index_sound
    (w : World) (record : ref) (data : option Payload) :
  let type := rec_type (getRecord w record) in
  index_sound w →
  record < length (heap w) →
  record ∈ recordsOf w type →
  idToRecordOf w type !! "null" ≠ Some record →
  index_sound (didSaveRecord record data w).1.
Proof.
  intros type Hs Hlive Hin Hnull. unfold didSaveRecord.
  assert (Hcommit : ∀ w1, index_sound w1 → index_sound (adapterDidCommit record w1).1).
  { intros w1 H1. eapply index_sound_same_index; [exact H1|].
    unfold adapterDidCommit, updateRecord, modify. cbn.
    split; [done|]. split; [cbn; by rewrite length_insert|].
    intros r. unfold getRecord. cbn. apply insert_with_state_ids. }
  destruct data as [d|].
  - destruct (index_sound_updateId w record d Hs Hlive Hin Hnull)
      as (w1 & o & H & H1 & _).
    destruct o as [[]|e|x].
    + rewrite (bind_Return _ _ _ _ _ H). by apply Hcommit.
    + by rewrite (bind_Throw _ _ _ _ _ H).
    + by rewrite (bind_Outside _ _ _ _ _ H).
  - unfold bind at 1. unfold ret at 1. by apply Hcommit.
Qed.

Lemma didSaveRecord_keeps_index_sound_witness :
  index_sound (didSaveRecord 0 (Some {| payload_id := JNum 5 |}) twoNewRecords).1 ∧
  idToRecordOf (didSaveRecord 0 (Some {| payload_id := JNum 5 |}) twoNewRecords).1
    Person !! "5" = Some 0.
Proof.
  split; [|reflexivity].
  apply (didSaveRecord_keeps_index_sound twoNewRecords 0 (Some {| payload_id := JNum 5 |})).
  - intros T k r H. unfold idToRecordOf in H. cbn [typeMaps twoNewRecords] in H.
    destruct (decide (T = Person)) as [->|Hne].
    + rewrite lookup_singleton_eq in H. cbn [idToRecord] in H.
      by rewrite lookup_empty in H.
    + rewrite lookup_singleton_ne in H by done. by rewrite lookup_empty in H.
  - vm_compute. lia.
  - vm_compute. apply list_elem_of_here.
  - vm_compute. discriminate.
Defined.

(** X26.  A payload without an id files the record under the key "null":
    [updateId] on a live record that has no id yet, with a payload whose id
    is null or undefined, is accepted and writes the record into the slot
    "null" of its type.  From then on [recordForId] with a null id and
    [getById] with the string "null" return that record instead of
    building one. *)
Theorem updateId_without_id_files_under_null
    (w : World) (record : ref) (d : Payload) :
  let type := rec_type (getRecord w record) in
  record < length (heap w) →
  rec_id (getRecord w record) = JNull →
  looseEqNull (payload_id d) = true →
  ∃ w', updateId record d w = (w', Return tt) ∧
        rec_id (getRecord w' record) = JNull ∧
        idToRecordOf w' type !! "null" = Some record ∧
        recordForId type JNull w' = (w', Return record) ∧
        recordForId type JUndefined w' = (w', Return record) ∧
        getById type (JStr "null") w' = (w', Return record).
Proof.
  intros type Hlive Hold Hnull.
  assert (Hid : coerceId (payload_id d) = JNull) by (unfold coerceId; by rewrite Hnull).
  destruct (updateId_ok w record d Hlive (or_introl Hold)) as (w' & H & Hslot & Hrec & _).
  fold type in Hslot. rewrite Hid in Hslot, Hrec. cbn in Hslot.
  exists w'. split; [done|]. split; [by rewrite Hrec|]. split; [done|].
  split; [|split].
  - by apply recordForId_hit.
  - by apply recordForId_hit.
  - by apply getById_hit.
Qed.

Lemma updateId_without_id_files_under_null_witness :
  ∃ w', updateId 0 {| payload_id := JUndefined |} twoNewRecords = (w', Return tt) ∧
        rec_id (getRecord w' 0) = JNull ∧
        idToRecordOf w' Person !! "null" = Some 0 ∧
        recordForId Person JNull w' = (w', Return 0) ∧
        recordForId Person JUndefined w' = (w', Return 0) ∧
        getById Person (JStr "null") w' = (w', Return 0).
Proof.
  apply (updateId_without_id_files_under_null twoNewRecords 0 {| payload_id := JUndefined |}).
  - vm_compute. lia.
  - reflexivity.
  - reflexivity.
Defined.

(** * Lookups at an inherited key *)

Lemma inheritedKey_not_empty (k : string) : inheritedKey k = true → k ≠ "".
Proof. intros H ->. by vm_compute in H. Qed.

(** X27.  [idToRecord] is a plain object, so under the name of a property
    of [Object.prototype] ("constructor", "toString", ...) it answers
    without holding a record.  For an id with such a canonical form and no
    record of its own, [hasRecordForId] answers true; [recordForId] and
    [getById] build no record and index nothing: they come back with the
    inherited property; and [buildRecord] refuses the id as already used.
    The records, the indexes and the record lists are as they were. *)
Theorem lookups_at_inherited_key (w : World) (type : EntityType) (v : jsval) :
  let k := toString (coerceId v) in
  inheritedKey k = true →
  idToRecordOf w type !! k = None →
  ∃ w',
    hasRecordForId type v w = (w', Return true) ∧
    recordForId type v w = (w', Outside (InheritedProperty k)) ∧
    getById type v w = (w', Outside (InheritedProperty k)) ∧
    (∀ data, buildRecord type (coerceId v) data w =
             (w', Throw (AssertionFailed IdAlreadyUsed))) ∧
    heap w' = heap w ∧
    ∀ T, idToRecordOf w' T = idToRecordOf w T ∧ recordsOf w' T = recordsOf w T.
Proof.
  intros k Hkey Hnone. exists (ensureTypeMap type w).
  split.
  { rewrite hasRecordForId_eq. unfold slotAt. fold k.
    by rewrite (slotOf_inherited _ _ Hnone Hkey). }
  split; [by apply recordForId_inherited|].
  split; [by apply getById_inherited|].
  split.
  { intros data.
    assert (Hv : looseEqNull v = false).
    { destruct (looseEqNull v) eqn:Hv; [|done].
      unfold k in Hkey. by rewrite (inheritedKey_coerceId_null v Hv) in Hkey. }
    assert (Hid : coerceId v = JStr k).
    { unfold k, coerceId. by rewrite Hv. }
    rewrite Hid. apply buildRecord_inherited; [|done..].
    apply truthy_coerceId_string. by apply inheritedKey_not_empty. }
  split; [apply ensureTypeMap_same|].
  intros T. apply ensureTypeMap_views.
Qed.

Lemma lookups_at_inherited_key_witness :
  ∃ w',
    hasRecordForId Person (JStr "constructor") freshStore = (w', Return true) ∧
    getById Person (JStr "constructor") freshStore
      = (w', Outside (InheritedProperty "constructor")) ∧
    buildRecord Person (JStr "constructor") None freshStore
      = (w', Throw (AssertionFailed IdAlreadyUsed)) ∧
    heap w' = [] ∧ recordsOf w' Person = [].
Proof.
  destruct (lookups_at_inherited_key freshStore Person (JStr "constructor"))
    as (w' & Hhas & _ & Hget & Hbuild & Hheap & Hviews); [reflexivity..|].
  exists w'. split; [exact Hhas|]. split; [exact Hget|].
  split; [exact (Hbuild None)|]. split; [exact Hheap|].
  exact (proj2 (Hviews Person)).
Defined.
